(** * gometalinter: extraction, rendering and orchestration of linter output

    A shallow embedding of [main.go].  Go strings are byte sequences and are
    modelled by [string] (a list of [ascii] bytes); Go's [int] is modelled by
    [Z]; the string-keyed configuration maps are [gmap string string].  The
    library packages the program leans on ([strings] and [bytes], [strconv],
    [fmt], [regexp]) are modelled first, each from the documented behaviour
    of the functions [main.go] calls; the program itself follows: the flags,
    [Issue] and its rendering, [executeLinter], the goroutines of [main] as
    an interleaving machine over its two channels, and [main]. *)

From Stdlib Require Import ZArith Ascii String List Bool Lia.
From stdpp Require Import gmap strings list.

Local Open Scope string_scope.
Local Open Scope Z_scope.

(* stdpp keeps [simpl] from unfolding string append; the proofs below compute
   with it. *)
#[local] Arguments String.append !s1 s2 : simpl nomatch.

(** ** Bytes and strings *)

Definition byte_val (c : ascii) : Z := Z.of_N (N_of_ascii c).

Definition nl : ascii := "010"%char.

Definition is_digit (c : ascii) : bool :=
  (48 <=? byte_val c) && (byte_val c <=? 57).

Definition slen (s : string) : nat := String.length s.

(** [s[:n]] *)
Fixpoint take_str (n : nat) (s : string) : string :=
  match n, s with
  | S n', String c s' => String c (take_str n' s')
  | _, _ => EmptyString
  end.

(** [s[n:]] *)
Fixpoint drop_str (n : nat) (s : string) : string :=
  match n, s with
  | S n', String _ s' => drop_str n' s'
  | _, _ => s
  end.

(** Go's [<] on strings: bytewise lexicographic order. *)
Fixpoint str_lt (a b : string) : bool :=
  match a, b with
  | _, EmptyString => false
  | EmptyString, String _ _ => true
  | String x a', String y b' =>
      if byte_val x <? byte_val y then true
      else if byte_val y <? byte_val x then false
      else str_lt a' b'
  end.

Fixpoint has_prefix (p s : string) : bool :=
  match p, s with
  | EmptyString, _ => true
  | String x p', String y s' => if Ascii.eqb x y then has_prefix p' s' else false
  | String _ _, EmptyString => false
  end.

(** ** Package strings / bytes *)

(** [strings.Replace(s, old, new, -1)] for a non-empty [old]: every
    non-overlapping occurrence, scanning from the left.  [skip] counts the
    bytes of an occurrence of [old] still to be dropped. *)
Fixpoint replace_from (skip : nat) (s old new : string) : string :=
  match s with
  | EmptyString => EmptyString
  | String c s' =>
      match skip with
      | S k => replace_from k s' old new
      | O =>
          if has_prefix old s
          then new ++ replace_from (slen old - 1) s' old new
          else String c (replace_from O s' old new)
      end
  end.

(** With an empty [old], Go inserts [new] before every character and at the
    end. *)
Fixpoint intersperse_str (s new : string) : string :=
  match s with
  | EmptyString => new
  | String c s' => new ++ String c (intersperse_str s' new)
  end.

Definition Replace (s old new : string) : string :=
  match old with
  | EmptyString => intersperse_str s new
  | _ => replace_from O s old new
  end.

(** [bytes.Split(out, []byte("\n"))]: the pieces between newlines; an input
    with [k] newlines gives [k + 1] pieces. *)
Fixpoint split_lines (s : string) : list string :=
  match s with
  | EmptyString => [EmptyString]
  | String c s' =>
      let r := split_lines s' in
      if Ascii.eqb c nl then EmptyString :: r
      else match r with
           | l :: ls => String c l :: ls
           | [] => [String c EmptyString]
           end
  end.

(** [strings.SplitN(s, ":", 2)]: [parts[0]] is the text before the first
    colon; [parts[1]] exists only when there is a colon. *)
Fixpoint split_colon (s : string) : string * option string :=
  match s with
  | EmptyString => (EmptyString, None)
  | String c s' =>
      if Ascii.eqb c ":"%char then (EmptyString, Some s')
      else let '(a, b) := split_colon s' in (String c a, b)
  end.

(** ** Package strconv *)

Inductive NumError := ErrSyntax | ErrRange.

Inductive parsed := Parsed (n : Z) | ParseFail (e : NumError).

Definition maxUint64 : Z := 2 ^ 64 - 1.

(** The digit loop of [strconv.ParseUint(s, 10, bitSize)]; [n] is the
    [uint64] accumulator. *)
Fixpoint parse_uint_loop (bitSize : Z) (s : string) (n : Z) : parsed :=
  match s with
  | EmptyString => Parsed n
  | String c s' =>
      if negb (is_digit c) then ParseFail ErrSyntax
      else
        let d := byte_val c - 48 in
        let cutoff := maxUint64 / 10 + 1 in
        let maxVal := 2 ^ bitSize - 1 in
        if cutoff <=? n then ParseFail ErrRange
        else
          let n10 := n * 10 in
          let n1 := (n10 + d) mod 2 ^ 64 in
          if (n1 <? n10) || (maxVal <? n1) then ParseFail ErrRange
          else parse_uint_loop bitSize s' n1
  end.

Definition ParseUint (s : string) (bitSize : Z) : parsed :=
  match s with
  | EmptyString => ParseFail ErrSyntax
  | _ => parse_uint_loop bitSize s 0
  end.

(** [strconv.ParseInt(s, 10, bitSize)]: an optional sign, then
    [ParseUint]; the magnitude must fit the signed [bitSize]-bit range. *)
Definition ParseInt (s : string) (bitSize : Z) : parsed :=
  match s with
  | EmptyString => ParseFail ErrSyntax
  | String c s' =>
      let '(neg, digits) :=
        if Ascii.eqb c "+"%char then (false, s')
        else if Ascii.eqb c "-"%char then (true, s')
        else (false, s) in
      match ParseUint digits bitSize with
      | ParseFail e => ParseFail e
      | Parsed un =>
          let cutoff := 2 ^ (bitSize - 1) in
          if negb neg && (cutoff <=? un) then ParseFail ErrRange
          else if neg && (cutoff <? un) then ParseFail ErrRange
          else Parsed (if neg then - un else un)
      end
  end.

(** ** Package fmt *)

Definition digit_char (d : Z) : ascii := ascii_of_N (Z.to_N (48 + d)).

Fixpoint utoa_fuel (fuel : nat) (n : Z) (acc : string) : string :=
  match fuel with
  | O => acc
  | S f =>
      let acc' := String (digit_char (n mod 10)) acc in
      if n <? 10 then acc' else utoa_fuel f (n / 10) acc'
  end.

(** Decimal digits of a non-negative integer, most significant first. *)
Definition utoa (n : Z) : string :=
  utoa_fuel (S (Z.to_nat (Z.log2 n))) n EmptyString.

(** The verb [%d] on an [int]. *)
Definition itoa (n : Z) : string :=
  if n <? 0 then String "-"%char (utoa (- n)) else utoa n.

Inductive fmt_arg := AStr (s : string) | AInt (n : Z).

Definition fmt_verb (v : ascii) (a : fmt_arg) : string :=
  match a with
  | AStr s => if Ascii.eqb v "s"%char then s else "%!" ++ String v "(string=" ++ s ++ ")"
  | AInt n => if Ascii.eqb v "d"%char then itoa n else "%!" ++ String v "(int=" ++ itoa n ++ ")"
  end.

(** [fmt.Sprintf] for formats built from literal text and the verbs [%s]
    and [%d]. *)
Fixpoint Sprintf (format : string) (args : list fmt_arg) : string :=
  match format with
  | EmptyString => EmptyString
  | String c rest =>
      if Ascii.eqb c "%"%char then
        match rest with
        | EmptyString => "%!(NOVERB)"
        | String v rest' =>
            if Ascii.eqb v "%"%char then String "%"%char (Sprintf rest' args)
            else match args with
                 | a :: args' => fmt_verb v a ++ Sprintf rest' args'
                 | [] => "%!" ++ String v "(MISSING)" ++ Sprintf rest' []
                 end
        end
      else String c (Sprintf rest args)
  end.

(** ** Package regexp

    The fragment of Go's RE2 syntax the program's patterns are written in:
    literals, [.], bracket classes, the Perl classes [\d \s \w] and their
    negations, [^] and [$], concatenation, alternation, the greedy and lazy
    forms of [* + ?], plain, named ([(?P<name>...)]) and non-capturing
    groups.  Matching is leftmost-first, the semantics Go documents: among
    the matches at the leftmost position, the one a backtracking search
    finds first.  Text is matched byte by byte, and every round of a
    repetition has to consume input (which shows only in the submatches
    reported for repetitions of expressions that can match the empty
    string; the program's patterns have none).  A pattern outside the
    fragment is treated like one that does not compile. *)

Module Regexp.

Record charclass := CharClass { cc_neg : bool; cc_ranges : list (Z * Z) }.

Definition in_ranges (rs : list (Z * Z)) (c : ascii) : bool :=
  existsb (fun r => (fst r <=? byte_val c) && (byte_val c <=? snd r)) rs.

Definition class_mem (cc : charclass) (c : ascii) : bool :=
  xorb (cc_neg cc) (in_ranges (cc_ranges cc) c).

Inductive regex :=
| REmpty
| RClass (cc : charclass)
| RBegin
| REnd
| RCat (r1 r2 : regex)
| RAlt (r1 r2 : regex)
| RStar (greedy : bool) (r : regex)
| RPlus (greedy : bool) (r : regex)
| RQuest (greedy : bool) (r : regex)
| RCapture (idx : nat) (name : string) (r : regex).

(** *** Syntax *)

Definition lit (c : ascii) : charclass := CharClass false [(byte_val c, byte_val c)].
Definition any_but_nl : charclass := CharClass true [(10, 10)].
Definition digit_ranges : list (Z * Z) := [(48, 57)].
Definition space_ranges : list (Z * Z) := [(9, 10); (12, 13); (32, 32)].
Definition word_ranges : list (Z * Z) := [(48, 57); (65, 90); (95, 95); (97, 122)].

Definition is_word_byte (c : ascii) : bool := in_ranges word_ranges c.
Definition is_punct (c : ascii) : bool :=
  (byte_val c <? 128) && negb (is_word_byte c).

(** The class denoted by the escape [\c] outside brackets. *)
Definition escape_class (c : ascii) : option charclass :=
  if Ascii.eqb c "d" then Some (CharClass false digit_ranges)
  else if Ascii.eqb c "D" then Some (CharClass true digit_ranges)
  else if Ascii.eqb c "s" then Some (CharClass false space_ranges)
  else if Ascii.eqb c "S" then Some (CharClass true space_ranges)
  else if Ascii.eqb c "w" then Some (CharClass false word_ranges)
  else if Ascii.eqb c "W" then Some (CharClass true word_ranges)
  else if Ascii.eqb c "t" then Some (CharClass false [(9, 9)])
  else if Ascii.eqb c "n" then Some (CharClass false [(10, 10)])
  else if Ascii.eqb c "r" then Some (CharClass false [(13, 13)])
  else if Ascii.eqb c "f" then Some (CharClass false [(12, 12)])
  else if Ascii.eqb c "v" then Some (CharClass false [(11, 11)])
  else if Ascii.eqb c "a" then Some (CharClass false [(7, 7)])
  else if is_punct c then Some (lit c)
  else None.

(** The ranges an escape adds inside brackets (negated Perl classes are
    outside the fragment). *)
Definition escape_ranges (c : ascii) : option (list (Z * Z)) :=
  match escape_class c with
  | Some (CharClass false rs) => Some rs
  | _ => None
  end.

(** The items of a bracket class up to the closing bracket; [first] is set
    while a closing bracket still counts as a literal. *)
Fixpoint parse_class_items (first : bool) (t : string) (acc : list (Z * Z))
  : option (list (Z * Z) * string) :=
  match t with
  | EmptyString => None
  | String c t1 =>
      if Ascii.eqb c "]" && negb first then Some (acc, t1)
      else if Ascii.eqb c "[" then
        match t1 with
        | String ":"%char _ => None
        | _ => parse_class_items false t1 (acc ++ [(byte_val c, byte_val c)])
        end
      else if Ascii.eqb c "\" then
        match t1 with
        | String e t2 =>
            match escape_ranges e with
            | Some rs =>
                match t2 with
                | String "-"%char (String "]"%char _) => parse_class_items false t2 (acc ++ rs)
                | String "-"%char _ => None
                | _ => parse_class_items false t2 (acc ++ rs)
                end
            | None => None
            end
        | EmptyString => None
        end
      else
        match t1 with
        | String "-"%char (String hi t3) =>
            if Ascii.eqb hi "]" then parse_class_items false t1 (acc ++ [(byte_val c, byte_val c)])
            else if Ascii.eqb hi "\" || Ascii.eqb hi "[" then None
            else if byte_val hi <? byte_val c then None
            else parse_class_items false t3 (acc ++ [(byte_val c, byte_val hi)])
        | _ => parse_class_items false t1 (acc ++ [(byte_val c, byte_val c)])
        end
  end.

Definition parse_class (t : string) : option (charclass * string) :=
  let '(neg, t') :=
    match t with
    | String "^"%char t1 => (true, t1)
    | _ => (false, t)
    end in
  match parse_class_items true t' [] with
  | Some (rs, rest) => Some (CharClass neg rs, rest)
  | None => None
  end.

(** A capture name: non-empty, letters, digits and underscores, closed by
    [>]. *)
Fixpoint parse_name (t : string) : option (string * string) :=
  match t with
  | EmptyString => None
  | String c t1 =>
      if Ascii.eqb c ">" then Some (EmptyString, t1)
      else if is_word_byte c then
        match parse_name t1 with
        | Some (n, rest) => Some (String c n, rest)
        | None => None
        end
      else None
  end.

(** One open group of the parser's stack: how it closes, the alternatives
    finished so far and the pieces of the current one (both newest first). *)
Inductive group_kind := GRoot | GPlain | GCap (idx : nat) (name : string).

Record frame := Frame {
  f_kind : group_kind;
  f_alts : list regex;
  f_seq : list regex
}.

Definition concat_of (rev_seq : list regex) : regex :=
  match rev_seq with
  | [] => REmpty
  | r :: rs => fold_left (fun acc x => RCat x acc) rs r
  end.

Definition close_frame (f : frame) : regex :=
  let body := fold_left (fun acc a => RAlt a acc) (f_alts f) (concat_of (f_seq f)) in
  match f_kind f with
  | GCap i n => RCapture i n body
  | _ => body
  end.

Definition push_atom (a : regex) (stack : list frame) : list frame :=
  match stack with
  | f :: fs => Frame (f_kind f) (f_alts f) (a :: f_seq f) :: fs
  | [] => []
  end.

Definition apply_repeat (op : ascii) (greedy : bool) (stack : list frame)
  : option (list frame) :=
  match stack with
  | Frame k alts (a :: seq) :: fs =>
      let a' := if Ascii.eqb op "*" then RStar greedy a
                else if Ascii.eqb op "+" then RPlus greedy a
                else RQuest greedy a in
      Some (Frame k alts (a' :: seq) :: fs)
  | _ => None
  end.

Definition is_repeat_op (c : ascii) : bool :=
  Ascii.eqb c "*" || Ascii.eqb c "+" || Ascii.eqb c "?".

(** The parser's main loop.  Every round consumes at least one byte of the
    pattern, so [fuel] beyond its length is never used up. *)
Fixpoint parse_loop (fuel : nat) (t : string) (stack : list frame) (ncap : nat)
    (lastRepeat : bool) : option regex :=
  match fuel with
  | O => None
  | S fuel' =>
      match t with
      | EmptyString =>
          match stack with
          | [f] => Some (close_frame f)
          | _ => None
          end
      | String c t1 =>
          if Ascii.eqb c "(" then
            match t1 with
            | String "?"%char (String "P"%char (String "<"%char t2)) =>
                match parse_name t2 with
                | Some (String n0 n, rest) =>
                    parse_loop fuel' rest (Frame (GCap (S ncap) (String n0 n)) [] [] :: stack)
                               (S ncap) false
                | _ => None
                end
            | String "?"%char (String ":"%char t2) =>
                parse_loop fuel' t2 (Frame GPlain [] [] :: stack) ncap false
            | String "?"%char _ => None
            | _ => parse_loop fuel' t1 (Frame (GCap (S ncap) EmptyString) [] [] :: stack)
                              (S ncap) false
            end
          else if Ascii.eqb c ")" then
            match stack with
            | f :: (g :: fs) as parent =>
                match f_kind f with
                | GRoot => None
                | _ => parse_loop fuel' t1 (push_atom (close_frame f) parent) ncap false
                end
            | _ => None
            end
          else if Ascii.eqb c "|" then
            match stack with
            | f :: fs =>
                parse_loop fuel' t1 (Frame (f_kind f) (concat_of (f_seq f) :: f_alts f) [] :: fs)
                           ncap false
            | [] => None
            end
          else if is_repeat_op c then
            if lastRepeat then None
            else
              let '(greedy, rest) :=
                match t1 with
                | String "?"%char t2 => (false, t2)
                | _ => (true, t1)
                end in
              match apply_repeat c greedy stack with
              | Some stack' => parse_loop fuel' rest stack' ncap true
              | None => None
              end
          else if Ascii.eqb c "[" then
            match parse_class t1 with
            | Some (cc, rest) => parse_loop fuel' rest (push_atom (RClass cc) stack) ncap false
            | None => None
            end
          else if Ascii.eqb c "\" then
            match t1 with
            | String e t2 =>
                match escape_class e with
                | Some cc => parse_loop fuel' t2 (push_atom (RClass cc) stack) ncap false
                | None => None
                end
            | EmptyString => None
            end
          else if Ascii.eqb c "{" then
            match t1 with
            | String d _ =>
                if is_digit d then None
                else parse_loop fuel' t1 (push_atom (RClass (lit c)) stack) ncap false
            | EmptyString => parse_loop fuel' t1 (push_atom (RClass (lit c)) stack) ncap false
            end
          else
            let a := if Ascii.eqb c "." then RClass any_but_nl
                     else if Ascii.eqb c "^" then RBegin
                     else if Ascii.eqb c "$" then REnd
                     else RClass (lit c) in
            parse_loop fuel' t1 (push_atom a stack) ncap false
      end
  end.

(** [regexp.Compile]: [None] stands for the error result. *)
Definition Compile (pattern : string) : option regex :=
  parse_loop (S (slen pattern)) pattern [Frame GRoot [] []] O false.

(** [re.SubexpNames()]: the empty name of the whole match, then the name
    of every capturing group in the order of their opening parentheses. *)
Fixpoint group_names (r : regex) : list string :=
  match r with
  | REmpty | RClass _ | RBegin | REnd => []
  | RCat r1 r2 | RAlt r1 r2 => group_names r1 ++ group_names r2
  | RStar _ r1 | RPlus _ r1 | RQuest _ r1 => group_names r1
  | RCapture _ n r1 => n :: group_names r1
  end.

Definition SubexpNames (re : regex) : list string := EmptyString :: group_names re.


(** *** Matching *)

(** The submatches of one match: entry [0] is the whole match, entry [i]
    the text of group [i], [None] for a group that took no part. *)
Definition captures := list (option string).

Definition set_cap (i : nat) (v : string) (caps : captures) : captures :=
  <[i := Some v]> caps.

Definition cont := string -> captures -> option (string * captures).

Definition or_else {A} (a : option A) (b : unit -> option A) : option A :=
  match a with
  | Some x => Some x
  | None => b tt
  end.

(** Repetition of the matcher [m]: at most [n] further rounds, each of
    which has to consume input.  A greedy loop tries another round before
    leaving, a lazy one after. *)
Fixpoint star_loop (m : string -> captures -> cont -> option (string * captures))
    (greedy : bool) (k : cont) (n : nat) (s : string) (caps : captures)
  : option (string * captures) :=
  match n with
  | O => k s caps
  | S n' =>
      let again := fun _ : unit =>
        m s caps (fun s' caps' =>
          if (slen s' <? slen s)%nat then star_loop m greedy k n' s' caps' else None) in
      if greedy then or_else (again tt) (fun _ => k s caps)
      else or_else (k s caps) again
  end.

(** Backtracking match of [r] at the head of [s], then [k] on what is
    left; [total] is the length of the whole text, for [^]. *)
Fixpoint bt (total : nat) (r : regex) (s : string) (caps : captures) (k : cont)
  : option (string * captures) :=
  match r with
  | REmpty => k s caps
  | RClass cc =>
      match s with
      | String c s' => if class_mem cc c then k s' caps else None
      | EmptyString => None
      end
  | RBegin => if (slen s =? total)%nat then k s caps else None
  | REnd => match s with EmptyString => k s caps | _ => None end
  | RCat r1 r2 => bt total r1 s caps (fun s' caps' => bt total r2 s' caps' k)
  | RAlt r1 r2 => or_else (bt total r1 s caps k) (fun _ => bt total r2 s caps k)
  | RStar g r1 => star_loop (bt total r1) g k (slen s) s caps
  | RPlus g r1 =>
      bt total r1 s caps (fun s' caps' => star_loop (bt total r1) g k (slen s') s' caps')
  | RQuest g r1 =>
      if g then or_else (bt total r1 s caps k) (fun _ => k s caps)
      else or_else (k s caps) (fun _ => bt total r1 s caps k)
  | RCapture i _ r1 =>
      bt total r1 s caps (fun s' caps' =>
        k s' (set_cap i (take_str (slen s - slen s') s) caps'))
  end.

Definition NumSubexp (re : regex) : nat := length (group_names re).

Record submatch := Submatch {
  m_start : nat;
  m_end : nat;
  m_groups : captures
}.

(** The match at exactly the head of [s], which sits at offset [pos]. *)
Definition match_here (total : nat) (re : regex) (pos : nat) (s : string)
  : option submatch :=
  match bt total re s (replicate (S (NumSubexp re)) None) (fun s' caps' => Some (s', caps')) with
  | Some (s', caps') =>
      let n := (slen s - slen s')%nat in
      Some (Submatch pos (pos + n) (set_cap O (take_str n s) caps'))
  | None => None
  end.

(** The leftmost match at or after the head of [s]. *)
Fixpoint search (total : nat) (re : regex) (pos : nat) (s : string) : option submatch :=
  match match_here total re pos s with
  | Some m => Some m
  | None =>
      match s with
      | EmptyString => None
      | String _ s' => search total re (S pos) s'
      end
  end.

(** The loop of [FindAll...(b, -1)]: successive matches, each search
    starting where the previous match ended; an empty match that touches
    the previous match is dropped, and after an empty match the search
    moves on by one byte.  [prevEnd] is [None] before the first match. *)
Fixpoint all_matches (fuel : nat) (re : regex) (b : string) (pos : nat)
    (prevEnd : option nat) : list submatch :=
  match fuel with
  | O => []
  | S fuel' =>
      if (slen b <? pos)%nat then []
      else
        match search (slen b) re pos (drop_str pos b) with
        | None => []
        | Some m =>
            let empty := (m_end m =? pos)%nat in
            let accept := negb (empty && bool_decide (prevEnd = Some (m_start m))) in
            let pos' := if empty then S pos else m_end m in
            let rest := all_matches fuel' re b pos' (Some (m_end m)) in
            if accept then m :: rest else rest
        end
  end.

Definition group_text (g : option string) : string := default EmptyString g.

(** [re.FindAllSubmatch(b, -1)]; the empty list is Go's [nil]. *)
Definition FindAllSubmatch (re : regex) (b : string) : list captures :=
  map m_groups (all_matches (slen b + 2) re b O None).

End Regexp.

(** ** The program: configuration *)

(** [type Severity string] *)
Abbreviation Severity := string (only parsing).

(** Linter message severity levels. *)
Definition Warning : Severity := "warning".
Definition Error : Severity := "error".

Definition predefinedPatterns : gmap string string :=
  <["PATH:LINE:COL:MESSAGE" := "(?P<path>[^:]+):(?P<line>\d+):(?P<col>\d+):\s*(?P<message>.*)"]>
  (<["PATH:LINE:MESSAGE" := "(?P<path>[^:]+):(?P<line>\d+):\s*(?P<message>.*)"]> ∅).

(** The flag variables [main] and [executeLinter] read.  They are written
    only while the command line is parsed, so a run sees one fixed value of
    each.  ([--install] and [--debug] are left out: the first replaces the
    lint run altogether, the second only adds text on standard error.)
    The concurrency is a Go [int]: the command line lets a negative number
    through. *)
Record Flags := {
  lintersFlag : gmap string string;
  linterMessageOverrideFlag : gmap string string;
  linterSeverityFlag : gmap string string;
  pathArg : string;
  fastFlag : bool;
  disableLintersFlag : list string;
  concurrencyFlag : Z;
  excludeFlag : string
}.

Definition defaultLinters : gmap string string :=
  <["golint" := "golint {path}:PATH:LINE:COL:MESSAGE"]>
  (<["vet" := "go tool vet {path}:PATH:LINE:MESSAGE"]>
  (<["gotype" := "gotype {path}:PATH:LINE:COL:MESSAGE"]>
  (<["errcheck" := "errcheck {path}:(?P<path>[^:]+):(?P<line>\d+):(?P<col>\d+)\t(?P<message>.*)"]>
  (<["varcheck" := "varcheck {path}:PATH:LINE:MESSAGE"]>
  (<["structcheck" := "structcheck {path}:PATH:LINE:MESSAGE"]>
  (<["defercheck" := "defercheck {path}:PATH:LINE:MESSAGE"]> ∅)))))).

Definition defaultMessageOverride : gmap string string :=
  <["errcheck" := "error return value not checked ({message})"]>
  (<["varcheck" := "unused global variable {message}"]>
  (<["structcheck" := "unused struct field {message}"]> ∅)).

Definition defaultSeverity : gmap string string :=
  <["errcheck" := "warning"]>
  (<["golint" := "warning"]>
  (<["varcheck" := "warning"]>
  (<["structcheck" := "warning"]> ∅))).

(** The flags of a run without command-line arguments. *)
Definition defaultFlags : Flags := {|
  lintersFlag := defaultLinters;
  linterMessageOverrideFlag := defaultMessageOverride;
  linterSeverityFlag := defaultSeverity;
  pathArg := ".";
  fastFlag := false;
  disableLintersFlag := [];
  concurrencyFlag := 16;
  excludeFlag := ""
|}.

(** ** The program: issues *)

Record Issue := {
  severity : Severity;
  path : string;
  line : Z;
  col : Z;
  message : string
}.

Definition emptyIssue : Issue :=
  {| severity := ""; path := ""; line := 0; col := 0; message := "" |}.

(** [func (m *Issue) String() string] *)
Definition Issue_String (m : Issue) : string :=
  let col := if col m =? 0 then "" else Sprintf "%d" [AInt (col m)] in
  Sprintf "%s:%d:%s:%s: %s"
    [AStr (path m); AInt (line m); AStr col; AStr (severity m); AStr (message m)].

(** [type Issues []*Issue] with the three methods of [sort.Interface];
    an index out of range is the run-time panic, here [None]. *)
Module Issues.

Definition Len (m : list Issue) : nat := length m.

Definition Swap (m : list Issue) (i j : nat) : option (list Issue) :=
  match m !! i, m !! j with
  | Some a, Some b => Some (<[j := a]> (<[i := b]> m))
  | _, _ => None
  end.

Definition less (a b : Issue) : bool :=
  str_lt (path a) (path b) || (line a <? line b) || (col a <? col b).

Definition Less (m : list Issue) (i j : nat) : option bool :=
  match m !! i, m !! j with
  | Some a, Some b => Some (less a b)
  | _, _ => None
  end.

End Issues.

(** ** The program: running one linter *)

(** What ends the process early: [kingpin.FatalIfError(err, text)] with a
    non-nil [err], or [kingpin.Fatalf(text)]. *)
Inductive go_error := NumErr (e : NumError) | PatternErr.

Inductive fatal := Fatal (text : string) (cause : option go_error).

(** What [cmd.CombinedOutput()] reports besides the output: [*exec.ExitError]
    when the command ran and left with a non-zero status, any other error
    when it could not be run. *)
Inductive cmd_error := ExitError (status : Z) | StartError (reason : string).

(** The world outside: what running a command line through the shell gives. *)
Definition shell := string -> string * option cmd_error.

(** What a call of [executeLinter] does to the rest of the program: the
    issues it sends on the channel, in order, and whether it returns
    ([None]) or ends the process. *)
Record trace := Trace {
  sent : list Issue;
  ending : option fatal
}.

(** The [switch name] of the loop over [re.SubexpNames()]. *)
Definition set_field (issue : Issue) (name part : string) : fatal + Issue :=
  if String.eqb name "path" then
    inr {| severity := severity issue; path := part; line := line issue;
           col := col issue; message := message issue |}
  else if String.eqb name "line" then
    match ParseInt part 32 with
    | ParseFail e => inl (Fatal "line matched invalid integer" (Some (NumErr e)))
    | Parsed n =>
        inr {| severity := severity issue; path := path issue; line := n;
               col := col issue; message := message issue |}
    end
  else if String.eqb name "col" then
    match ParseInt part 32 with
    | ParseFail e => inl (Fatal "col matched invalid integer" (Some (NumErr e)))
    | Parsed n =>
        inr {| severity := severity issue; path := path issue; line := line issue;
               col := n; message := message issue |}
    end
  else if String.eqb name "message" then
    inr {| severity := severity issue; path := path issue; line := line issue;
           col := col issue; message := part |}
  else if String.eqb name "" then inr issue
  else inl (Fatal ("invalid subgroup " ++ name) None).

(** [for i, name := range re.SubexpNames()], from index [i] on, over the
    submatches [groups] of the first match. *)
Fixpoint fill_fields (names : list string) (i : nat) (groups : Regexp.captures)
    (issue : Issue) : fatal + Issue :=
  match names with
  | [] => inr issue
  | name :: names' =>
      let part := Regexp.group_text (default None (groups !! i)) in
      match set_field issue name part with
      | inl f => inl f
      | inr issue' => fill_fields names' (S i) groups issue'
      end
  end.

(** The two overlays applied once the fields are set. *)
Definition finish_issue (fl : Flags) (name : string) (issue : Issue) : Issue :=
  let msg :=
    match linterMessageOverrideFlag fl !! name with
    | Some m => Replace m "{message}" (message issue)
    | None => message issue
    end in
  let sev :=
    match linterSeverityFlag fl !! name with
    | Some sev => sev
    | None => "error"
    end in
  {| severity := sev; path := path issue; line := line issue; col := col issue;
     message := msg |}.

(** The body of the loop over the lines of the output: [None] when the
    line is skipped. *)
Definition extract_line (fl : Flags) (re : Regexp.regex) (name line : string)
  : fatal + option Issue :=
  match Regexp.FindAllSubmatch re line with
  | [] => inr None
  | first :: _ =>
      match fill_fields (Regexp.SubexpNames re) O first emptyIssue with
      | inl f => inl f
      | inr issue => inr (Some (finish_issue fl name issue))
      end
  end.

(** [for _, line := range bytes.Split(out, []byte("\n"))] *)
Fixpoint extract_lines (fl : Flags) (re : Regexp.regex) (name : string)
    (lines : list string) : trace :=
  match lines with
  | [] => Trace [] None
  | line :: rest =>
      match extract_line fl re name line with
      | inl f => Trace [] (Some f)
      | inr None => extract_lines fl re name rest
      | inr (Some issue) =>
          let t := extract_lines fl re name rest in
          Trace (issue :: sent t) (ending t)
      end
  end.

Definition extract (fl : Flags) (re : Regexp.regex) (name out : string) : trace :=
  extract_lines fl re name (split_lines out).

(** [func executeLinter(issues chan *Issue, name, command, pattern, paths string)] *)
Definition executeLinter (fl : Flags) (sh : shell) (name command pattern paths : string)
  : trace :=
  let pattern := default pattern (predefinedPatterns !! pattern) in
  match Regexp.Compile pattern with
  | None => Trace [] (Some (Fatal ("invalid pattern for '" ++ command ++ "'") (Some PatternErr)))
  | Some re =>
      let command := Replace command "{path}" paths in
      match sh command with
      | (_, Some (StartError _)) => Trace [] None
      | (out, _) => extract fl re name out
      end
  end.

(** ** The program: the goroutines of [main]

    Every enabled linter gets one goroutine running

      [concurrency <- true; executeLinter(...); <-concurrency; wg.Done()]

    against the buffered channels [concurrency] (capacity
    [*concurrencyFlag]) and [issues] (capacity 100000).  The interleaving of
    the goroutines is a list of events, each naming the goroutine that takes
    its next step; a step that cannot be taken in the current state (a send
    on a full channel, a receive on an empty one) gives [None]. *)

Inductive pc :=
| Waiting                                   (* before [concurrency <- true] *)
| Running (todo : list Issue) (fin : option fatal)   (* inside [executeLinter] *)
| Releasing                                 (* before [<-concurrency] *)
| Signalling                                (* before [wg.Done()] *)
| Finished.

Record state := State {
  tasks : gmap string pc;
  sem : nat;                  (* len(concurrency) *)
  queue : list Issue;         (* the buffer of [issues], oldest first *)
  wg : nat;                   (* the WaitGroup counter *)
  exited : option fatal       (* set once a goroutine has ended the process *)
}.

Inductive event :=
| Admit (name : string)      (* [concurrency <- true] goes through *)
| Emit (name : string)       (* [issues <- issue] goes through *)
| Return (name : string)     (* [executeLinter] returns *)
| Die (name : string)        (* [executeLinter] ends the process *)
| Release (name : string)    (* [<-concurrency] goes through *)
| Done (name : string)       (* [wg.Done()] *)
| Handoff (sender receiver : string).
                             (* an unbuffered [concurrency]: a send meets a receive *)

Definition issuesCap : Z := 100000.

Definition set_pc (name : string) (p : pc) (s : state) : state :=
  State (<[name := p]> (tasks s)) (sem s) (queue s) (wg s) (exited s).

Definition step (K : nat) (work : string -> trace) (s : state) (e : event)
  : option state :=
  match exited s with
  | Some _ => None
  | None =>
      match e with
      | Admit n =>
          match tasks s !! n with
          | Some Waiting =>
              if (sem s <? K)%nat then
                Some (State (<[n := Running (sent (work n)) (ending (work n))]> (tasks s))
                            (S (sem s)) (queue s) (wg s) None)
              else None
          | _ => None
          end
      | Emit n =>
          match tasks s !! n with
          | Some (Running (i :: todo) fin) =>
              if Z.of_nat (length (queue s)) <? issuesCap then
                Some (State (<[n := Running todo fin]> (tasks s))
                            (sem s) (queue s ++ [i]) (wg s) None)
              else None
          | _ => None
          end
      | Return n =>
          match tasks s !! n with
          | Some (Running [] None) => Some (set_pc n Releasing s)
          | _ => None
          end
      | Die n =>
          match tasks s !! n with
          | Some (Running [] (Some f)) =>
              Some (State (tasks s) (sem s) (queue s) (wg s) (Some f))
          | _ => None
          end
      | Release n =>
          match tasks s !! n, sem s with
          | Some Releasing, S k =>
              Some (State (<[n := Signalling]> (tasks s)) k (queue s) (wg s) None)
          | _, _ => None
          end
      | Done n =>
          match tasks s !! n with
          | Some Signalling =>
              Some (State (<[n := Finished]> (tasks s)) (sem s) (queue s) (pred (wg s)) None)
          | _ => None
          end
      | Handoff n r =>
          match K, tasks s !! n, tasks s !! r with
          | O, Some Waiting, Some Releasing =>
              Some (set_pc r Signalling
                     (set_pc n (Running (sent (work n)) (ending (work n))) s))
          | _, _, _ => None
          end
      end
  end.

Fixpoint run (K : nat) (work : string -> trace) (s : state) (sched : list event)
  : option state :=
  match sched with
  | [] => Some s
  | e :: sched' =>
      match step K work s e with
      | Some s' => run K work s' sched'
      | None => None
      end
  end.

(** The state once the loop of [main] has started every goroutine. *)
Definition start (names : gmap string pc) : state :=
  State names O [] (size names) None.

(** The goroutines inside the gate: between their send on [concurrency]
    and the return of [executeLinter]. *)
Definition is_running (p : pc) : bool :=
  match p with Running _ _ => true | _ => false end.

(** The goroutines that have sent on [concurrency] and not yet received. *)
Definition holds_slot (p : pc) : bool :=
  match p with Running _ _ | Releasing => true | _ => false end.

Definition count_pc (f : pc -> bool) (m : gmap string pc) : nat :=
  size (filter (fun kv => f kv.2 = true) m).

(** ** The program: [main] *)

(** [filter.MatchString(s)] *)
Definition MatchString (re : Regexp.regex) (s : string) : bool :=
  match Regexp.search (slen s) re O s with
  | Some _ => true
  | None => false
  end.

(** The loop [for issue := range issues] after [close(issues)]: what is
    written on standard output, one element for every [Printf]. *)
Definition report (filter : option Regexp.regex) (issues : list Issue) : list string :=
  flat_map (fun issue =>
    match filter with
    | Some re =>
        if MatchString re (Issue_String issue) then []
        else [Sprintf ("%s" ++ String nl "") [AStr (Issue_String issue)]]
    | None => [Sprintf ("%s" ++ String nl "") [AStr (Issue_String issue)]]
    end) issues.

Definition disabled (fl : Flags) : list string :=
  if fastFlag fl then disableLintersFlag fl ++ ["structcheck"; "varcheck"; "errcheck"]
  else disableLintersFlag fl.

(** The linters the loop of [main] starts a goroutine for. *)
Definition enabled (fl : Flags) : gmap string string :=
  filter (fun kv => kv.1 ∉ disabled fl) (lintersFlag fl).

(** What the goroutine of linter [name] does inside [executeLinter];
    [main] cuts the description at its first colon. *)
Definition work_of (fl : Flags) (sh : shell) (name : string) : trace :=
  match enabled fl !! name with
  | Some description =>
      match split_colon description with
      | (command, Some pattern) => executeLinter fl sh name command pattern (pathArg fl)
      | (_, None) => Trace [] None
      end
  | None => Trace [] None
  end.

Inductive outcome :=
| Panicked                       (* a run-time panic in [main] itself *)
| Exited (f : fatal)             (* a goroutine ended the process *)
| Printed (lines : list string). (* [main] returned; its standard output *)

Definition has_colon (description : string) : bool :=
  match split_colon description with
  | (_, Some _) => true
  | _ => false
  end.

(** [main] under the interleaving [sched] of its goroutines; [None] when
    [sched] is not an interleaving that brings the run to its end.
    [regexp.MustCompile] panics on a bad [--exclude];
    [make(chan bool, *concurrencyFlag)] panics on a negative capacity and on
    one above [chanMax], the largest capacity for which the Go runtime of
    the platform makes such a channel (main.go does not fix it; the channel
    of 100000 issues is taken to be within what the platform allows);
    [parts[1]] panics on a description without a colon (the goroutines
    started before that are not followed). *)
Definition main (chanMax : Z) (fl : Flags) (sh : shell) (sched : list event)
  : option outcome :=
  let filter :=
    if String.eqb (excludeFlag fl) "" then Some None
    else option_map Some (Regexp.Compile (excludeFlag fl)) in
  match filter with
  | None => Some Panicked
  | Some filter =>
      if (concurrencyFlag fl <? 0) || (chanMax <? concurrencyFlag fl)
      then Some Panicked
      else if negb (forallb (fun kv => has_colon kv.2) (map_to_list (enabled fl)))
      then Some Panicked
      else
        match run (Z.to_nat (concurrencyFlag fl)) (work_of fl sh)
                  (start ((fun _ => Waiting) <$> enabled fl)) sched with
        | None => None
        | Some s =>
            match exited s with
            | Some f => Some (Exited f)
            | None =>
                match wg s with
                | O => Some (Printed (report filter (queue s)))
                | S _ => None
                end
            end
        end
  end.

(** ** The program: linter descriptions and the help text *)

(** [strings.Index(s, sep)]: the offset of the first [sep] in [s], or -1. *)
Fixpoint Index_from (s sep : string) (i : Z) : Z :=
  if has_prefix sep s then i
  else match s with
       | EmptyString => -1
       | String _ s' => Index_from s' sep (i + 1)
       end.

Definition Index (s sep : string) : Z := Index_from s sep 0.

(** The slice expression [s[lo:hi]]; out of [0 <= lo <= hi <= len(s)] it
    panics, here [None]. *)
Definition slice (s : string) (lo hi : Z) : option string :=
  if (0 <=? lo) && (lo <=? hi) && (hi <=? Z.of_nat (slen s))
  then Some (take_str (Z.to_nat (hi - lo)) (drop_str (Z.to_nat lo) s))
  else None.

(** [type Linter string] and its two methods. *)
Module Linter.

Definition Command (l : string) : option string := slice l 0 (Index l ":").

Definition Pattern (l : string) : option string :=
  slice l (Index l ":") (Z.of_nat (slen l)).

End Linter.

(** [formatLinters], over the entries of [lintersFlag] in the order the
    [range] loop meets them. *)
Fixpoint formatLinters (entries : list (string * string)) : option string :=
  match entries with
  | [] => Some EmptyString
  | (command, description) :: rest =>
      match Linter.Command description, Linter.Pattern description with
      | Some c, Some p =>
          match formatLinters rest with
          | Some tail =>
              Some (Sprintf ("    %s -> %s -> %s" ++ String nl "")
                            [AStr command; AStr c; AStr p] ++ tail)
          | None => None
          end
      | _, _ => None
      end
  end.

(** The text of the help for the linters, entry by entry. *)
Fixpoint concat_lines (entries : list (string * string)) : string :=
  match entries with
  | [] => EmptyString
  | (name, description) :: rest =>
      let '(command, pattern) := split_colon description in
      "    " ++ name ++ " -> " ++ command ++ " -> :" ++ default "" pattern
        ++ String nl "" ++ concat_lines rest
  end.

(** ** Notions used in the statements *)

(** The value a run of decimal digits denotes, continuing from [n]. *)
Fixpoint dec_acc (s : string) (n : Z) : Z :=
  match s with
  | EmptyString => n
  | String c s' => dec_acc s' (n * 10 + (byte_val c - 48))
  end.

Definition decimal_value (s : string) : Z := dec_acc s 0.

Fixpoint all_bytes (f : ascii -> bool) (s : string) : bool :=
  match s with
  | EmptyString => true
  | String c s' => f c && all_bytes f s'
  end.

Definition all_digits (s : string) : bool := all_bytes is_digit s.

(** The severity [executeLinter] gives the issues of linter [name]. *)
Definition tool_severity (fl : Flags) (name : string) : Severity :=
  default Error (linterSeverityFlag fl !! name).

(** The group names the [switch] of [executeLinter] has a case for. *)
Definition known_name (name : string) : bool :=
  String.eqb name "path" || String.eqb name "line" || String.eqb name "col"
  || String.eqb name "message" || String.eqb name "".

Definition invalid_integer (f : fatal) : Prop :=
  exists e, f = Fatal "line matched invalid integer" (Some (NumErr e))
         \/ f = Fatal "col matched invalid integer" (Some (NumErr e)).

(** The lines of [out] on which the pattern matches at least once. *)
Definition matching_lines (re : Regexp.regex) (out : string) : list string :=
  List.filter (fun l => negb (Nat.eqb (length (Regexp.FindAllSubmatch re l)) 0))
              (split_lines out).

(** The issue a line of output stands for: the one built from the leftmost
    match of the pattern on it, when there is a match and its fields are
    accepted. *)
Definition line_issue (fl : Flags) (re : Regexp.regex) (name l : string) : option Issue :=
  match Regexp.search (slen l) re O l with
  | None => None
  | Some m =>
      match fill_fields (Regexp.SubexpNames re) O (Regexp.m_groups m) emptyIssue with
      | inl _ => None
      | inr issue => Some (finish_issue fl name issue)
      end
  end.


(** The order the report is described to have: path, then line, then
    column. *)
Definition lex_less (a b : Issue) : bool :=
  str_lt (path a) (path b)
  || (String.eqb (path a) (path b)
      && ((line a <? line b) || ((line a =? line b) && (col a <? col b)))).

(** The pattern of [golint] and [gotype], compiled. *)
Definition plcm : Regexp.regex :=
  Eval vm_compute in
    default Regexp.REmpty
      (Regexp.Compile "(?P<path>[^:]+):(?P<line>\d+):(?P<col>\d+):\s*(?P<message>.*)").

(** The invariant of the gate: the goroutines holding a slot are as many
    as the elements buffered in [concurrency], and these never exceed its
    capacity [K]. *)
Definition gate_inv (K : nat) (s : state) : Prop :=
  count_pc holds_slot (tasks s) = sem s /\ (sem s <= K)%nat.

Definition bit (b : bool) : nat := if b then 1%nat else 0%nat.


Definition not_colon (c : ascii) : bool := negb (Ascii.eqb c ":").


(** ** Notions used in the statements about [main] *)

(** A sum over the goroutines: [f] of every name and program counter,
    appended in the order the map lists them. *)
Definition map_flat {A} (f : string -> pc -> list A) (m : gmap string pc) : list A :=
  flat_map (fun kv => f kv.1 kv.2) (map_to_list m).

(** The issues goroutine [name] has still to send. *)
Definition pending (work : string -> trace) (name : string) (p : pc) : list Issue :=
  match p with
  | Waiting => sent (work name)
  | Running todo _ => todo
  | _ => []
  end.

(** Everything the goroutines send in a run that lets them all finish. *)
Definition all_sent (work : string -> trace) (m : gmap string pc) : list Issue :=
  map_flat (fun name _ => sent (work name)) m.

Definition not_finished (p : pc) : bool :=
  match p with Finished => false | _ => true end.

(** A program counter agrees with how [executeLinter] ends: a goroutine
    past its [executeLinter] has seen it return. *)
Definition pc_ok (work : string -> trace) (name : string) (p : pc) : Prop :=
  match p with
  | Waiting => True
  | Running _ fin => fin = ending (work name)
  | _ => ending (work name) = None
  end.

(** What every state of a run satisfies. *)
Record run_inv (work : string -> trace) (s : state) : Prop := RunInv {
  inv_wg : count_pc not_finished (tasks s) = wg s;
  inv_queue : queue s ++ map_flat (pending work) (tasks s) ≡ₚ all_sent work (tasks s);
  inv_pc : map_Forall (pc_ok work) (tasks s);
  inv_exit : forall f, exited s = Some f ->
                       exists name, is_Some (tasks s !! name) /\ ending (work name) = Some f;
  inv_cap : Z.of_nat (length (queue s)) <= issuesCap
}.

(** The schedule that lets goroutine [name] run from start to finish on
    its own. *)
Definition solo (work : string -> trace) (name : string) : list event :=
  Admit name :: repeat (Emit name) (length (sent (work name)))
    ++ [Return name; Release name; Done name].

(** One goroutine after the other. *)
Definition in_turn (work : string -> trace) (names : list string) : list event :=
  flat_map (solo work) names.

(** The filter [main] builds from [--exclude]: none for the empty string. *)
Definition exclude_filter (fl : Flags) : option Regexp.regex :=
  if String.eqb (excludeFlag fl) "" then None else Regexp.Compile (excludeFlag fl).

(** The goroutines [main] starts, all before their first step. *)
Definition goroutines (fl : Flags) : gmap string pc := (fun _ => Waiting) <$> enabled fl.

(** The issues the enabled linters send between them. *)
Definition issues_of (fl : Flags) (sh : shell) : list Issue :=
  all_sent (work_of fl sh) (goroutines fl).

(** A description [main] and [executeLinter] can work with: it has a colon,
    its pattern compiles, and the pattern's groups are all among the names
    of the [switch]. *)
Definition well_formed (description : string) : bool :=
  match split_colon description with
  | (_, Some pattern) =>
      match Regexp.Compile (default pattern (predefinedPatterns !! pattern)) with
      | Some re => forallb known_name (Regexp.SubexpNames re)
      | None => false
      end
  | (_, None) => false
  end.

(** The pattern of [vet] and the [check] tools, compiled. *)
Definition plm : Regexp.regex :=
  Eval vm_compute in
    default Regexp.REmpty
      (Regexp.Compile "(?P<path>[^:]+):(?P<line>\d+):\s*(?P<message>.*)").

(** Both numbers of an issue fit a signed 32-bit integer. *)
Definition fits_int32 (issue : Issue) : Prop :=
  (- 2 ^ 31 <= line issue <= 2 ^ 31 - 1) /\ (- 2 ^ 31 <= col issue <= 2 ^ 31 - 1).

Definition not_brace (c : ascii) : bool := negb (Ascii.eqb c "{").

(** The three ways [executeLinter] ends the process. *)
Definition invalid_pattern (command : string) (f : fatal) : Prop :=
  f = Fatal ("invalid pattern for '" ++ command ++ "'") (Some PatternErr).

Definition invalid_subgroup (re : Regexp.regex) (f : fatal) : Prop :=
  exists name, In name (Regexp.SubexpNames re) /\ known_name name = false
               /\ f = Fatal ("invalid subgroup " ++ name) None.

(** A continuation of the matcher that keeps the number of submatches at
    [n]. *)
Definition keeps (n : nat) (k : Regexp.cont) : Prop :=
  forall s caps res, length caps = n -> k s caps = Some res -> length res.2 = n.

(** * Properties *)

(** ** Strings *)

Lemma sapp_assoc (a b c : string) : (a ++ b) ++ c = a ++ (b ++ c).
Proof. induction a as [|x a IH]; simpl; [reflexivity | f_equal; exact IH]. Qed.

Lemma sapp_nil_r (a : string) : a ++ "" = a.
Proof. induction a as [|x a IH]; simpl; [reflexivity | f_equal; exact IH]. Qed.

Lemma slen_app (a b : string) : slen (a ++ b) = (slen a + slen b)%nat.
Proof. induction a as [|x a IH]; simpl; [reflexivity | f_equal; exact IH]. Qed.

(** ** Rendering *)



(** ** Severity *)

Lemma finish_issue_severity (fl : Flags) (name : string) (issue : Issue) :
  severity (finish_issue fl name issue) = tool_severity fl name.
Proof.
  unfold finish_issue, tool_severity; simpl.
  destruct (linterSeverityFlag fl !! name); reflexivity.
Qed.

Lemma extract_line_severity fl re name l issue :
  extract_line fl re name l = inr (Some issue) ->
  severity issue = tool_severity fl name.
Proof.
  unfold extract_line.
  destruct (Regexp.FindAllSubmatch re l) as [|first rest]; [discriminate|].
  destruct (fill_fields _ _ _ _) as [f|filled]; [discriminate|].
  intros [= <-]. apply finish_issue_severity.
Qed.

Lemma extract_lines_severity fl re name lines issue :
  In issue (sent (extract_lines fl re name lines)) ->
  severity issue = tool_severity fl name.
Proof.
  induction lines as [|l lines IH]; simpl; [tauto|].
  destruct (extract_line fl re name l) as [f|[found|]] eqn:E; simpl.
  - tauto.
  - intros [<-|Hin]; [eapply extract_line_severity; eassumption | auto].
  - assumption.
Qed.

Lemma executeLinter_severity fl sh name command pattern paths issue :
  In issue (sent (executeLinter fl sh name command pattern paths)) ->
  severity issue = tool_severity fl name.
Proof.
  unfold executeLinter.
  destruct (Regexp.Compile _) as [re|]; [|simpl; tauto].
  destruct (sh _) as [out [[status|reason]|]]; simpl; try tauto;
    apply extract_lines_severity.
Qed.

(** C7.  Every issue [executeLinter] sends for a linter carries that
    linter's entry of the severity map when there is one, and [error] when
    there is none. *)
Theorem severity_assignment fl sh name command pattern paths issue :
  In issue (sent (executeLinter fl sh name command pattern paths)) ->
  (forall sev, linterSeverityFlag fl !! name = Some sev -> severity issue = sev)
  /\ (linterSeverityFlag fl !! name = None -> severity issue = Error).
Proof.
  intros Hin. apply executeLinter_severity in Hin.
  unfold tool_severity in Hin.
  split.
  - intros sev Hsev. rewrite Hin, Hsev. reflexivity.
  - intros Hnone. rewrite Hin, Hnone. reflexivity.
Qed.

Lemma severity_assignment_witness :
  let sh : shell := fun _ =>
    ("a.go:5:3: bad" ++ String nl ("b.go:7:1: worse" ++ String nl ""), Some (ExitError 1)) in
  let issue :=
    {| severity := "warning"; path := "b.go"; line := 7; col := 1; message := "worse" |} in
  In issue (sent (executeLinter defaultFlags sh "golint" "golint {path}"
                                "PATH:LINE:COL:MESSAGE" "."))
  /\ ((forall sev, linterSeverityFlag defaultFlags !! "golint" = Some sev ->
                   severity issue = sev)
      /\ (linterSeverityFlag defaultFlags !! "golint" = None -> severity issue = Error)).
Proof.
  intros sh issue.
  assert (Hin : In issue (sent (executeLinter defaultFlags sh "golint" "golint {path}"
                                              "PATH:LINE:COL:MESSAGE" "."))).
  { vm_compute. right. left. reflexivity. }
  split; [exact Hin|].
  exact (severity_assignment defaultFlags sh "golint" "golint {path}"
                             "PATH:LINE:COL:MESSAGE" "." issue Hin).
Defined.

(** The severity map is taken as it is: an entry outside the two named
    levels reaches the issues unchanged. *)
Lemma severity_open_to_overrides :
  ~ (forall fl sh name command pattern paths issue,
       In issue (sent (executeLinter fl sh name command pattern paths)) ->
       severity issue = Warning \/ severity issue = Error).
Proof.
  intros H.
  pose (fl := {| lintersFlag := defaultLinters;
                 linterMessageOverrideFlag := defaultMessageOverride;
                 linterSeverityFlag := <["golint" := "info"]> defaultSeverity;
                 pathArg := "."; fastFlag := false; disableLintersFlag := [];
                 concurrencyFlag := 16; excludeFlag := "" |}).
  pose (sh := (fun _ => ("a.go:5:3: bad", None)) : shell).
  specialize (H fl sh "golint" "golint {path}" "PATH:LINE:COL:MESSAGE" "."
                {| severity := "info"; path := "a.go"; line := 5; col := 3;
                   message := "bad" |}).
  destruct H as [H|H]; [|discriminate H|discriminate H].
  vm_compute. left. reflexivity.
Qed.

(** C4 (as amended).  Every issue [executeLinter] sends carries one
    severity: the linter's entry of the severity map, or [error] without an
    entry.  It is one of [warning] and [error] whenever every entry of the
    map is. *)
Theorem severity_closed_when_map_is fl sh name command pattern paths issue :
  map_Forall (fun _ sev => sev = Warning \/ sev = Error) (linterSeverityFlag fl) ->
  In issue (sent (executeLinter fl sh name command pattern paths)) ->
  severity issue = default Error (linterSeverityFlag fl !! name)
  /\ (severity issue = Warning \/ severity issue = Error).
Proof.
  intros Hmap Hin. apply executeLinter_severity in Hin.
  unfold tool_severity in Hin. split; [exact Hin|].
  rewrite Hin. destruct (linterSeverityFlag fl !! name) as [sev|] eqn:E; simpl.
  - exact (Hmap name sev E).
  - right; reflexivity.
Qed.

Lemma defaultSeverity_closed :
  map_Forall (fun _ sev => sev = Warning \/ sev = Error) defaultSeverity.
Proof.
  unfold defaultSeverity.
  repeat (apply map_Forall_insert_2; [left; reflexivity|]).
  apply map_Forall_empty.
Defined.

Lemma severity_closed_when_map_is_witness :
  let sh : shell := fun _ => ("a.go:5:3: bad", None) in
  let issue :=
    {| severity := "error"; path := "a.go"; line := 5; col := 3; message := "bad" |} in
  map_Forall (fun _ sev => sev = Warning \/ sev = Error) (linterSeverityFlag defaultFlags)
  /\ In issue (sent (executeLinter defaultFlags sh "gotype" "gotype {path}"
                                   "PATH:LINE:COL:MESSAGE" "."))
  /\ (severity issue = default Error (linterSeverityFlag defaultFlags !! "gotype")
      /\ (severity issue = Warning \/ severity issue = Error)).
Proof.
  intros sh issue.
  assert (Hin : In issue (sent (executeLinter defaultFlags sh "gotype" "gotype {path}"
                                              "PATH:LINE:COL:MESSAGE" "."))).
  { vm_compute. left. reflexivity. }
  split; [exact defaultSeverity_closed|]. split; [exact Hin|].
  exact (severity_closed_when_map_is defaultFlags sh "gotype" "gotype {path}"
           "PATH:LINE:COL:MESSAGE" "." issue defaultSeverity_closed Hin).
Defined.

(** ** Running the command *)

Lemma plcm_compiled :
  Regexp.Compile "(?P<path>[^:]+):(?P<line>\d+):(?P<col>\d+):\s*(?P<message>.*)" = Some plcm.
Proof. vm_compute. reflexivity. Qed.

Lemma predefined_plcm :
  predefinedPatterns !! "PATH:LINE:COL:MESSAGE"
  = Some "(?P<path>[^:]+):(?P<line>\d+):(?P<col>\d+):\s*(?P<message>.*)".
Proof. vm_compute. reflexivity. Qed.

Lemma FindAllSubmatch_first (re : Regexp.regex) (b : string) :
  Regexp.FindAllSubmatch re b =
  match Regexp.search (slen b) re O b with
  | None => []
  | Some m =>
      Regexp.m_groups m ::
      map Regexp.m_groups
        (Regexp.all_matches (S (slen b)) re b
           (if (Regexp.m_end m =? 0)%nat then 1%nat else Regexp.m_end m)
           (Some (Regexp.m_end m)))
  end.
Proof.
  unfold Regexp.FindAllSubmatch.
  replace (slen b + 2)%nat with (S (S (slen b))) by lia.
  cbn [Regexp.all_matches].
  replace (slen b <? 0)%nat with false by (symmetry; apply Nat.ltb_ge; lia).
  change (drop_str 0 b) with b.
  destruct (Regexp.search (slen b) re 0 b) as [m|]; [|reflexivity].
  rewrite bool_decide_eq_false_2 by discriminate.
  rewrite andb_false_r. reflexivity.
Qed.

Lemma extract_line_leftmost fl re name l :
  extract_line fl re name l =
  match Regexp.search (slen l) re O l with
  | None => inr None
  | Some m =>
      match fill_fields (Regexp.SubexpNames re) O (Regexp.m_groups m) emptyIssue with
      | inl f => inl f
      | inr issue => inr (Some (finish_issue fl name issue))
      end
  end.
Proof.
  unfold extract_line. rewrite FindAllSubmatch_first.
  destruct (Regexp.search (slen l) re 0 l); reflexivity.
Qed.

(** An extraction that returns has sent the issues of the lines, in the
    order of the lines. *)
Lemma extract_lines_sent fl re name lines :
  ending (extract_lines fl re name lines) = None ->
  sent (extract_lines fl re name lines) = omap (line_issue fl re name) lines.
Proof.
  induction lines as [|l lines IH]; [reflexivity|].
  cbn [extract_lines omap list_omap]. rewrite extract_line_leftmost. unfold line_issue.
  destruct (Regexp.search (slen l) re 0 l) as [m|]; [|exact IH].
  destruct (fill_fields _ _ _ _) as [f|issue]; cbn [sent ending]; [discriminate|].
  intros Hend. f_equal. exact (IH Hend).
Qed.

(** With a pattern that compiles, a command that ran (whatever its exit
    status) has its output extracted. *)
Lemma executeLinter_ran fl sh name command pattern paths re out status :
  Regexp.Compile (default pattern (predefinedPatterns !! pattern)) = Some re ->
  sh (Replace command "{path}" paths) = (out, option_map ExitError status) ->
  executeLinter fl sh name command pattern paths = extract fl re name out.
Proof.
  intros Hre Hsh. unfold executeLinter. rewrite Hre, Hsh.
  destruct status; reflexivity.
Qed.

(** The four steps of a goroutine whose [executeLinter] sends nothing and
    returns: they go through one after the other and leave the channel of
    issues as it was. *)
Lemma quiet_goroutine_runs K work s name :
  work name = Trace [] None ->
  exited s = None -> tasks s !! name = Some Waiting -> (sem s < K)%nat ->
  run K work s [Admit name; Return name; Release name; Done name]
  = Some (State (<[name := Finished]> (tasks s)) (sem s) (queue s) (pred (wg s)) None).
Proof.
  intros Hwork Hex Hn Hlt. apply Nat.ltb_lt in Hlt.
  cbn [run]. unfold step at 1. rewrite Hex, Hn, Hlt, Hwork. cbn [sent ending].
  unfold step at 1. cbn [exited tasks]. rewrite lookup_insert_eq. unfold set_pc.
  unfold step at 1. cbn [exited tasks sem queue wg]. rewrite lookup_insert_eq.
  unfold step at 1. cbn [exited tasks sem queue wg]. rewrite lookup_insert_eq.
  rewrite !insert_insert_eq. reflexivity.
Qed.

(** C8.  When the command cannot be started, [executeLinter] sends no issue
    and returns; its goroutine, once let through the gate, gives back its
    slot and signals the wait group, leaving the channel of issues and the
    process as they were.  When the command ran and left with a non-zero
    status, that is no error: the trace of [executeLinter] is the one of a
    clean exit with the same output, and when the extraction returns it has
    sent the issue of every line of the output that stands for one, in the
    order of the lines. *)
Theorem launch_failure_is_soft fl sh name command pattern paths re out :
  Regexp.Compile (default pattern (predefinedPatterns !! pattern)) = Some re ->
  (forall reason,
     sh (Replace command "{path}" paths) = (out, Some (StartError reason)) ->
     executeLinter fl sh name command pattern paths = Trace [] None
     /\ forall K work s,
          work name = executeLinter fl sh name command pattern paths ->
          exited s = None -> tasks s !! name = Some Waiting -> (sem s < K)%nat ->
          run K work s [Admit name; Return name; Release name; Done name]
          = Some (State (<[name := Finished]> (tasks s)) (sem s) (queue s)
                        (pred (wg s)) None))
  /\ (forall status,
        sh (Replace command "{path}" paths) = (out, Some (ExitError status)) ->
        executeLinter fl sh name command pattern paths = extract fl re name out
        /\ (forall sh',
              sh' (Replace command "{path}" paths) = (out, None) ->
              executeLinter fl sh name command pattern paths
              = executeLinter fl sh' name command pattern paths)
        /\ (ending (executeLinter fl sh name command pattern paths) = None ->
            sent (executeLinter fl sh name command pattern paths)
            = omap (line_issue fl re name) (split_lines out)))
  /\ (sh (Replace command "{path}" paths) = (out, None) ->
      executeLinter fl sh name command pattern paths = extract fl re name out).
Proof.
  intros Hre. split; [|split].
  - intros reason Hsh.
    assert (Hquiet : executeLinter fl sh name command pattern paths = Trace [] None).
    { unfold executeLinter. rewrite Hre, Hsh. reflexivity. }
    split; [exact Hquiet|].
    intros K work s Hwork. apply quiet_goroutine_runs. rewrite Hwork. exact Hquiet.
  - intros status Hsh.
    assert (Hran : executeLinter fl sh name command pattern paths = extract fl re name out).
    { apply (executeLinter_ran _ _ _ _ _ _ _ _ (Some status)); assumption. }
    split; [exact Hran|]. split.
    + intros sh' Hsh'. rewrite Hran. symmetry.
      apply (executeLinter_ran _ _ _ _ _ _ _ _ None); assumption.
    + rewrite Hran. unfold extract. apply extract_lines_sent.
  - intros Hsh. apply (executeLinter_ran _ _ _ _ _ _ _ _ None); assumption.
Qed.

Lemma launch_failure_is_soft_witness :
  let sh : shell := fun command =>
    if String.eqb command "golint ./src" then ("a.go:5:3: bad", Some (ExitError 1))
    else ("/bin/sh: not found", Some (StartError "fork/exec /bin/sh: no such file")) in
  Regexp.Compile (default "PATH:LINE:COL:MESSAGE"
                          (predefinedPatterns !! "PATH:LINE:COL:MESSAGE")) = Some plcm
  /\ sh (Replace "golint {path}" "{path}" "./src") = ("a.go:5:3: bad", Some (ExitError 1))
  /\ ending (executeLinter defaultFlags sh "golint" "golint {path}"
                           "PATH:LINE:COL:MESSAGE" "./src") = None
  /\ sent (executeLinter defaultFlags sh "golint" "golint {path}"
                         "PATH:LINE:COL:MESSAGE" "./src")
     = [ {| severity := "warning"; path := "a.go"; line := 5; col := 3;
            message := "bad" |} ]
  /\ executeLinter defaultFlags sh "gotype" "gotype {path}" "PATH:LINE:COL:MESSAGE" "./src"
     = Trace [] None.
Proof.
  intros sh.
  assert (Hre : Regexp.Compile (default "PATH:LINE:COL:MESSAGE"
                   (predefinedPatterns !! "PATH:LINE:COL:MESSAGE")) = Some plcm).
  { vm_compute. reflexivity. }
  assert (Hsh : sh (Replace "golint {path}" "{path}" "./src")
                = ("a.go:5:3: bad", Some (ExitError 1))).
  { vm_compute. reflexivity. }
  assert (Hend : ending (executeLinter defaultFlags sh "golint" "golint {path}"
                           "PATH:LINE:COL:MESSAGE" "./src") = None).
  { vm_compute. reflexivity. }
  split; [exact Hre|]. split; [exact Hsh|]. split; [exact Hend|]. split.
  - rewrite (proj2 (proj2 (proj1 (proj2 (launch_failure_is_soft defaultFlags sh "golint"
               "golint {path}" "PATH:LINE:COL:MESSAGE" "./src" plcm "a.go:5:3: bad" Hre))
               1 Hsh)) Hend).
    vm_compute. reflexivity.
  - refine (proj1 (proj1 (launch_failure_is_soft defaultFlags sh "gotype" "gotype {path}"
             "PATH:LINE:COL:MESSAGE" "./src" plcm "/bin/sh: not found" Hre)
             "fork/exec /bin/sh: no such file" _)).
    vm_compute. reflexivity.
Defined.

(** ** One worked extraction *)

(** C6.  From the output ["a.go:5:3: bad\n"], under the predefined pattern
    [PATH:LINE:COL:MESSAGE], a linter without a message override sends
    exactly one issue: path [a.go], line 5, column 3, message [bad]. *)
Theorem extract_plcm_example fl sh name command paths status :
  linterMessageOverrideFlag fl !! name = None ->
  sh (Replace command "{path}" paths)
    = ("a.go:5:3: bad" ++ String nl "", option_map ExitError status) ->
  exists sev,
    executeLinter fl sh name command "PATH:LINE:COL:MESSAGE" paths
    = Trace [{| severity := sev; path := "a.go"; line := 5; col := 3; message := "bad" |}]
            None.
Proof.
  intros Hmsg Hsh. exists (tool_severity fl name).
  rewrite (executeLinter_ran fl sh name command "PATH:LINE:COL:MESSAGE" paths plcm
             ("a.go:5:3: bad" ++ String nl "") status);
    [| rewrite predefined_plcm; exact plcm_compiled | exact Hsh].
  unfold extract.
  change (split_lines ("a.go:5:3: bad" ++ String nl "")) with ["a.go:5:3: bad"; ""].
  cbn [extract_lines].
  assert (H1 : extract_line fl plcm name "a.go:5:3: bad"
               = inr (Some {| severity := tool_severity fl name; path := "a.go";
                              line := 5; col := 3; message := "bad" |})).
  { unfold extract_line.
    replace (Regexp.FindAllSubmatch plcm "a.go:5:3: bad")
      with [[Some "a.go:5:3: bad"; Some "a.go"; Some "5"; Some "3"; Some "bad"]]
      by (vm_compute; reflexivity).
    replace (fill_fields (Regexp.SubexpNames plcm) 0
               [Some "a.go:5:3: bad"; Some "a.go"; Some "5"; Some "3"; Some "bad"] emptyIssue)
      with (inr (A := fatal) {| severity := ""; path := "a.go"; line := 5; col := 3;
                                message := "bad" |})
      by (vm_compute; reflexivity).
    unfold finish_issue, tool_severity; simpl. rewrite Hmsg.
    destruct (linterSeverityFlag fl !! name); reflexivity. }
  assert (H2 : extract_line fl plcm name "" = inr None).
  { unfold extract_line.
    replace (Regexp.FindAllSubmatch plcm "") with (@nil Regexp.captures)
      by (vm_compute; reflexivity).
    reflexivity. }
  rewrite H1, H2. reflexivity.
Qed.

Lemma extract_plcm_example_witness :
  let sh : shell := fun _ => ("a.go:5:3: bad" ++ String nl "", None) in
  linterMessageOverrideFlag defaultFlags !! "gotype" = None
  /\ sh (Replace "gotype {path}" "{path}" ".")
     = ("a.go:5:3: bad" ++ String nl "", option_map ExitError None)
  /\ exists sev,
       executeLinter defaultFlags sh "gotype" "gotype {path}" "PATH:LINE:COL:MESSAGE" "."
       = Trace [{| severity := sev; path := "a.go"; line := 5; col := 3;
                   message := "bad" |}] None.
Proof.
  intros sh.
  assert (Hmsg : linterMessageOverrideFlag defaultFlags !! "gotype" = None)
    by (vm_compute; reflexivity).
  assert (Hsh : sh (Replace "gotype {path}" "{path}" ".")
                = ("a.go:5:3: bad" ++ String nl "", option_map ExitError None))
    by reflexivity.
  split; [exact Hmsg|]. split; [exact Hsh|].
  exact (extract_plcm_example defaultFlags sh "gotype" "gotype {path}" "." None Hmsg Hsh).
Defined.

(** ** Matches and issues *)

(** The first submatch [FindAllSubmatch] returns is the leftmost match of
    the line; there is none exactly when the pattern matches nowhere. *)
Lemma extract_lines_count fl re name lines :
  ending (extract_lines fl re name lines) = None ->
  length (sent (extract_lines fl re name lines))
  = length (List.filter
              (fun l => negb (Nat.eqb (length (Regexp.FindAllSubmatch re l)) 0)) lines).
Proof.
  induction lines as [|l lines IH]; [reflexivity|].
  cbn [extract_lines List.filter].
  unfold extract_line.
  destruct (Regexp.FindAllSubmatch re l) as [|first rest]; cbn.
  - exact IH.
  - destruct (fill_fields _ _ _ _) as [f|issue]; cbn; [discriminate|].
    intros Hend. f_equal. auto.
Qed.

(** A line with two matches gives one issue. *)
Lemma two_matches_one_issue :
  ~ (forall fl re name l,
       ending (extract_lines fl re name [l]) = None ->
       length (sent (extract_lines fl re name [l]))
       = length (Regexp.FindAllSubmatch re l)).
Proof.
  intros H.
  specialize (H defaultFlags
                (default Regexp.REmpty (Regexp.Compile "(?P<path>[a-z.]+):(?P<line>\d+)"))
                "vet" "a.go:5 b.go:12").
  vm_compute in H. specialize (H eq_refl). discriminate H.
Qed.

(** C2 (as amended).  On every line the extraction asks for all
    non-overlapping matches, and builds its issue from the first of them,
    the leftmost match, alone: a line with one match or with many gives one
    issue, a line without a match none.  So a run of the extraction that
    returns has sent as many issues as there are lines with a match. *)
Theorem one_issue_per_matching_line fl re name out :
  (forall l,
     extract_line fl re name l =
     match Regexp.search (slen l) re O l with
     | None => inr None
     | Some m =>
         match fill_fields (Regexp.SubexpNames re) O (Regexp.m_groups m) emptyIssue with
         | inl f => inl f
         | inr issue => inr (Some (finish_issue fl name issue))
         end
     end)
  /\ (ending (extract fl re name out) = None ->
      length (sent (extract fl re name out)) = length (matching_lines re out)).
Proof.
  split.
  - apply extract_line_leftmost.
  - apply extract_lines_count.
Qed.

Lemma one_issue_per_matching_line_witness :
  let re := default Regexp.REmpty (Regexp.Compile "(?P<path>[a-z.]+):(?P<line>\d+)") in
  let out := "a.go:5 b.go:12" ++ String nl ("ok" ++ String nl "c.go:1") in
  ending (extract defaultFlags re "vet" out) = None
  /\ length (sent (extract defaultFlags re "vet" out)) = 2%nat
  /\ length (matching_lines re out) = 2%nat.
Proof.
  intros re out.
  assert (Hend : ending (extract defaultFlags re "vet" out) = None)
    by (vm_compute; reflexivity).
  split; [exact Hend|].
  pose proof (proj2 (one_issue_per_matching_line defaultFlags re "vet" out) Hend) as Hlen.
  split; [|vm_compute; reflexivity].
  rewrite Hlen. vm_compute. reflexivity.
Defined.

(** ** The report *)

Lemma report_unfiltered (issues : list Issue) :
  report None issues = map (fun issue => Issue_String issue ++ String nl "") issues.
Proof.
  induction issues as [|issue issues IH]; [reflexivity|].
  unfold report in *. cbn [flat_map map app]. rewrite IH. reflexivity.
Qed.

(** C1 (the code at the failing input).  With [golint] alone enabled and
    reporting a finding in [b.go] before one in [a.go], [main] prints the
    [b.go] line first: the issues leave in the order they entered the
    channel.  [Less], which no call reaches, would not put them in order
    either: it ranks the [b.go] issue before the [a.go] one because its
    line is smaller. *)
Theorem main_prints_in_arrival_order :
  let fl := {| lintersFlag := defaultLinters;
               linterMessageOverrideFlag := defaultMessageOverride;
               linterSeverityFlag := defaultSeverity;
               pathArg := "."; fastFlag := true;
               disableLintersFlag := ["vet"; "gotype"; "defercheck"];
               concurrencyFlag := 16; excludeFlag := "" |} in
  let sh : shell := fun _ =>
    ("b.go:1:1: x" ++ String nl ("a.go:2:1: y" ++ String nl ""), None) in
  let A := {| severity := "warning"; path := "a.go"; line := 2; col := 1; message := "y" |} in
  let B := {| severity := "warning"; path := "b.go"; line := 1; col := 1; message := "x" |} in
  main (2 ^ 31 - 1) fl sh
       [Admit "golint"; Emit "golint"; Emit "golint"; Return "golint";
        Release "golint"; Done "golint"]
  = Some (Printed ["b.go:1:1:warning: x" ++ String nl ""; "a.go:2:1:warning: y" ++ String nl ""])
  /\ str_lt (path A) (path B) = true
  /\ lex_less A B = true
  /\ Issues.Less [B; A] 0 1 = Some true.
Proof. vm_compute. repeat split; reflexivity. Qed.

(** ** The gate *)

Section Gate.

Variable K : nat.
Variable work : string -> trace.

Lemma count_pc_fresh (f : pc -> bool) (m : gmap string pc) (n : string) (q : pc) :
  m !! n = None ->
  count_pc f (<[n := q]> m) = (bit (f q) + count_pc f m)%nat.
Proof.
  intros Hn. unfold count_pc. destruct (f q) eqn:Hq; simpl.
  - rewrite map_filter_insert_True by exact Hq.
    rewrite map_size_insert_None; [reflexivity|].
    apply map_lookup_filter_None_2. left; exact Hn.
  - rewrite map_filter_insert_False by (simpl; congruence).
    rewrite delete_id by exact Hn. reflexivity.
Qed.

(** Moving one goroutine from [p] to [q] moves the count by the
    difference of the two. *)
Lemma count_pc_insert (f : pc -> bool) (m : gmap string pc) (n : string) (p q : pc) :
  m !! n = Some p ->
  (count_pc f (<[n := q]> m) + bit (f p) = count_pc f m + bit (f q))%nat.
Proof.
  intros Hn.
  rewrite <- (insert_delete_id m n p Hn) at 2.
  rewrite <- (insert_delete_eq m n q).
  rewrite !count_pc_fresh by apply lookup_delete_eq. lia.
Qed.

Lemma count_pc_le (m : gmap string pc) :
  (count_pc is_running m <= count_pc holds_slot m)%nat.
Proof.
  unfold count_pc. apply map_subseteq_size, map_filter_subseteq_ext.
  intros n [| | | |]; simpl; intros _ H; congruence.
Qed.

Lemma gate_inv_start (names : gmap string pc) :
  map_Forall (fun _ p => p = Waiting) names -> gate_inv K (start names).
Proof.
  intros Hall. split; [|simpl; lia]. simpl. unfold count_pc.
  rewrite map_empty_filter_2; [apply map_size_empty|].
  intros n p Hp. rewrite (Hall n p Hp). simpl. discriminate.
Qed.

Lemma gate_inv_step (s s' : state) (e : event) :
  gate_inv K s -> step K work s e = Some s' -> gate_inv K s'.
Proof.
  intros [Hcount Hle]. unfold step.
  destruct (exited s); [discriminate|].
  destruct e as [n|n|n|n|n|n|n r].
  - destruct (tasks s !! n) as [[| | | |]|] eqn:Hn; try discriminate.
    destruct (sem s <? K)%nat eqn:Hlt; [|discriminate].
    intros [= <-]. apply Nat.ltb_lt in Hlt.
    pose proof (count_pc_insert holds_slot _ _ _
                  (Running (sent (work n)) (ending (work n))) Hn) as Hc.
    split; simpl in *; lia.
  - destruct (tasks s !! n) as [[|[|i todo] fin| | |]|] eqn:Hn; try discriminate.
    destruct (Z.of_nat (length (queue s)) <? issuesCap); [|discriminate].
    intros [= <-].
    pose proof (count_pc_insert holds_slot _ _ _ (Running todo fin) Hn) as Hc.
    split; simpl in *; lia.
  - destruct (tasks s !! n) as [[|[|i todo] [f|]| | |]|] eqn:Hn; try discriminate.
    intros [= <-].
    pose proof (count_pc_insert holds_slot _ _ _ Releasing Hn) as Hc.
    split; simpl in *; lia.
  - destruct (tasks s !! n) as [[|[|i todo] [f|]| | |]|] eqn:Hn; try discriminate.
    intros [= <-]. split; simpl; assumption.
  - destruct (tasks s !! n) as [[| | | |]|] eqn:Hn; try discriminate.
    destruct (sem s) as [|k] eqn:Hsem; [discriminate|].
    intros [= <-].
    pose proof (count_pc_insert holds_slot _ _ _ Signalling Hn) as Hc.
    split; simpl in *; lia.
  - destruct (tasks s !! n) as [[| | | |]|] eqn:Hn; try discriminate.
    intros [= <-].
    pose proof (count_pc_insert holds_slot _ _ _ Finished Hn) as Hc.
    split; simpl in *; lia.
  - destruct K as [|k] eqn:HK; [|discriminate].
    destruct (tasks s !! n) as [[| | | |]|] eqn:Hn; try discriminate.
    destruct (tasks s !! r) as [[| | | |]|] eqn:Hr; try discriminate.
    intros [= <-].
    pose proof (count_pc_insert holds_slot _ _ _ Signalling Hr) as Hc.
    simpl in Hc. lia.
Qed.

Lemma gate_inv_run (sched : list event) (s s' : state) :
  gate_inv K s -> run K work s sched = Some s' -> gate_inv K s'.
Proof.
  revert s. induction sched as [|e sched IH]; intros s Hinv; simpl.
  - intros [= <-]. exact Hinv.
  - destruct (step K work s e) as [s1|] eqn:Hstep; [|discriminate].
    apply IH. eapply gate_inv_step; eassumption.
Qed.

End Gate.

(** C9.  Whatever the interleaving, the goroutines inside the gate (past
    their send on [concurrency], still in [executeLinter]) never number
    more than the capacity [K] of the channel; and while [K] of them are
    inside, no further goroutine gets its send through. *)
Theorem concurrency_ceiling (K : nat) (work : string -> trace)
    (linters : gmap string string) (sched : list event) (s : state) :
  run K work (start ((fun _ => Waiting) <$> linters)) sched = Some s ->
  (count_pc is_running (tasks s) <= K)%nat
  /\ (count_pc is_running (tasks s) = K ->
      forall n r, step K work s (Admit n) = None /\ step K work s (Handoff n r) = None).
Proof.
  intros Hrun.
  assert (Hinv : gate_inv K s).
  { eapply gate_inv_run; [|exact Hrun]. apply gate_inv_start.
    intros n p. rewrite lookup_fmap. destruct (linters !! n); simpl; congruence. }
  destruct Hinv as [Hcount Hle].
  pose proof (count_pc_le (tasks s)) as Hrun_le.
  split; [lia|].
  intros Hfull n r. unfold step. destruct (exited s); [split; reflexivity|].
  split.
  - destruct (tasks s !! n) as [[| | | |]|]; try reflexivity.
    replace (sem s <? K)%nat with false; [reflexivity|].
    symmetry. apply Nat.ltb_ge. lia.
  - destruct K as [|k]; [|reflexivity].
    destruct (tasks s !! n) as [[| | | |]|]; try reflexivity.
    destruct (tasks s !! r) as [[| | | |]|] eqn:Hr; try reflexivity.
    exfalso.
    pose proof (count_pc_insert holds_slot _ _ _ Signalling Hr) as Hc.
    simpl in Hc. lia.
Qed.

Lemma concurrency_ceiling_witness :
  let work : string -> trace := fun _ => Trace [] None in
  let sched := [Admit "golint"; Admit "vet"; Return "golint"; Release "golint";
                Admit "gotype"] in
  exists s,
    run 2 work (start ((fun _ => Waiting) <$> defaultLinters)) sched = Some s
    /\ (count_pc is_running (tasks s) <= 2)%nat
    /\ (count_pc is_running (tasks s) = 2%nat ->
        forall n r, step 2 work s (Admit n) = None /\ step 2 work s (Handoff n r) = None).
Proof.
  intros work sched.
  destruct (run 2 work (start ((fun _ => Waiting) <$> defaultLinters)) sched) as [s|] eqn:Hrun.
  - exists s. split; [reflexivity|].
    exact (concurrency_ceiling 2 work defaultLinters sched s Hrun).
  - vm_compute in Hrun. discriminate Hrun.
Defined.

(** ** Numerals *)

Lemma is_digit_range (c : ascii) :
  is_digit c = true -> 0 <= byte_val c - 48 <= 9.
Proof. unfold is_digit. intros H. apply andb_true_iff in H. lia. Qed.

Lemma dec_acc_mono (s : string) (n : Z) :
  all_digits s = true -> 0 <= n -> n <= dec_acc s n.
Proof.
  revert n. induction s as [|c s IH]; intros n Hd Hn; simpl; [lia|].
  simpl in Hd. apply andb_true_iff in Hd as [Hc Hs].
  apply is_digit_range in Hc.
  specialize (IH (n * 10 + (byte_val c - 48)) Hs). lia.
Qed.

Lemma dec_acc_app (a b : string) (n : Z) :
  dec_acc (a ++ b) n = dec_acc b (dec_acc a n).
Proof. revert n. induction a as [|c a IH]; intros n; simpl; [reflexivity | apply IH]. Qed.

(** On a run of digits the loop of [ParseUint] computes the denoted value,
    unless that value leaves the 32-bit range. *)
Lemma parse_uint_loop_digits (s : string) (n : Z) :
  all_digits s = true -> 0 <= n <= 2 ^ 32 - 1 ->
  parse_uint_loop 32 s n =
  if dec_acc s n <=? 2 ^ 32 - 1 then Parsed (dec_acc s n) else ParseFail ErrRange.
Proof.
  revert n. induction s as [|c s IH]; intros n Hd Hn.
  - simpl. destruct (Z.leb_spec n (2 ^ 32 - 1)); [reflexivity | lia].
  - simpl in Hd. apply andb_true_iff in Hd as [Hc Hs].
    cbn [parse_uint_loop dec_acc]. rewrite Hc. cbn [negb].
    pose proof (is_digit_range c Hc) as Hr.
    unfold maxUint64.
    destruct (Z.leb_spec ((2 ^ 64 - 1) / 10 + 1) n) as [Hcut|_].
    { change ((2 ^ 64 - 1) / 10 + 1) with 1844674407370955162 in Hcut. lia. }
    rewrite Z.mod_small by lia.
    destruct (Z.ltb_spec (n * 10 + (byte_val c - 48)) (n * 10)) as [Hw|_]; [lia|].
    cbn [orb].
    destruct (Z.ltb_spec (2 ^ 32 - 1) (n * 10 + (byte_val c - 48))) as [Hbig|Hsmall].
    + pose proof (dec_acc_mono s (n * 10 + (byte_val c - 48)) Hs) as Hm.
      destruct (Z.leb_spec (dec_acc s (n * 10 + (byte_val c - 48))) (2 ^ 32 - 1));
        [lia | reflexivity].
    + apply IH; [exact Hs | lia].
Qed.

Lemma digit_not_sign (c : ascii) :
  is_digit c = true -> Ascii.eqb c "+" = false /\ Ascii.eqb c "-" = false.
Proof.
  intros Hc. split.
  - destruct (Ascii.eqb c "+") eqn:E; [|reflexivity].
    apply Ascii.eqb_eq in E. subst c. discriminate Hc.
  - destruct (Ascii.eqb c "-") eqn:E; [|reflexivity].
    apply Ascii.eqb_eq in E. subst c. discriminate Hc.
Qed.

(** [ParseInt(s, 10, 32)] on a non-empty run of digits. *)
Lemma ParseInt_digits (s : string) :
  s <> "" -> all_digits s = true ->
  ParseInt s 32 =
  if decimal_value s <=? 2 ^ 31 - 1 then Parsed (decimal_value s) else ParseFail ErrRange.
Proof.
  intros Hne Hd. destruct s as [|c s]; [congruence|].
  pose proof Hd as Hd'. simpl in Hd'. apply andb_true_iff in Hd' as [Hc _].
  destruct (digit_not_sign c Hc) as [Hplus Hminus].
  unfold ParseInt. rewrite Hplus, Hminus. unfold ParseUint.
  rewrite (parse_uint_loop_digits (String c s) 0 Hd) by lia.
  fold (decimal_value (String c s)).
  set (v := decimal_value (String c s)).
  destruct (Z.leb_spec v (2 ^ 32 - 1)) as [H32|H32].
  - cbn [negb andb]. change (2 ^ (32 - 1)) with (2 ^ 31).
    destruct (Z.leb_spec (2 ^ 31) v); destruct (Z.leb_spec v (2 ^ 31 - 1));
      try reflexivity; lia.
  - destruct (Z.leb_spec v (2 ^ 31 - 1)); [lia | reflexivity].
Qed.

(** ** Fatal endings *)


Lemma set_field_known issue field part f :
  known_name field = true -> set_field issue field part = inl f -> invalid_integer f.
Proof.
  unfold known_name, set_field. intros Hk.
  destruct (String.eqb field "path"); [discriminate|].
  destruct (String.eqb field "line").
  { destruct (ParseInt part 32) as [n|e]; [discriminate|].
    intros [= <-]. exists e; auto. }
  destruct (String.eqb field "col").
  { destruct (ParseInt part 32) as [n|e]; [discriminate|].
    intros [= <-]. exists e; auto. }
  destruct (String.eqb field "message"); [discriminate|].
  destruct (String.eqb field ""); [discriminate|].
  discriminate Hk.
Qed.


Lemma fill_fields_known names j groups issue f :
  forallb known_name names = true ->
  fill_fields names j groups issue = inl f -> invalid_integer f.
Proof.
  revert j issue. induction names as [|name names IH]; intros j issue Hk; cbn [fill_fields].
  - discriminate.
  - cbn in Hk. apply andb_true_iff in Hk as [Hname Hrest].
    destruct (set_field issue name _) as [f'|issue'] eqn:E.
    + intros [= <-]. eapply set_field_known; eassumption.
    + apply IH. exact Hrest.
Qed.

Lemma extract_line_known fl re name l f :
  forallb known_name (Regexp.SubexpNames re) = true ->
  extract_line fl re name l = inl f -> invalid_integer f.
Proof.
  intros Hk. unfold extract_line.
  destruct (Regexp.FindAllSubmatch re l) as [|first rest]; [discriminate|].
  destruct (fill_fields _ _ _ _) as [f'|issue] eqn:E; [|discriminate].
  intros [= <-]. eapply fill_fields_known; eassumption.
Qed.


Lemma extract_lines_known fl re name lines f :
  forallb known_name (Regexp.SubexpNames re) = true ->
  ending (extract_lines fl re name lines) = Some f -> invalid_integer f.
Proof.
  intros Hk. induction lines as [|l lines IH]; cbn [extract_lines]; [discriminate|].
  destruct (extract_line fl re name l) as [f0|[issue|]] eqn:E; cbn.
  - intros [= <-]. eapply extract_line_known; eassumption.
  - exact IH.
  - exact IH.
Qed.

Lemma set_field_unknown issue field part :
  known_name field = false ->
  set_field issue field part = inl (Fatal ("invalid subgroup " ++ field) None).
Proof.
  unfold known_name, set_field. intros Hk.
  destruct (String.eqb field "path"); [discriminate|].
  destruct (String.eqb field "line"); [discriminate|].
  destruct (String.eqb field "col"); [discriminate|].
  destruct (String.eqb field "message"); [discriminate|].
  destruct (String.eqb field ""); [discriminate|]. reflexivity.
Qed.

Lemma set_field_fatal issue field part f :
  set_field issue field part = inl f ->
  invalid_integer f
  \/ (known_name field = false /\ f = Fatal ("invalid subgroup " ++ field) None).
Proof.
  intros Hf. destruct (known_name field) eqn:Hk.
  - left. eapply set_field_known; eassumption.
  - right. rewrite (set_field_unknown issue field part Hk) in Hf.
    injection Hf as <-. auto.
Qed.

Lemma fill_fields_fatal names i groups issue f :
  fill_fields names i groups issue = inl f ->
  invalid_integer f
  \/ exists name, In name names /\ known_name name = false
                  /\ f = Fatal ("invalid subgroup " ++ name) None.
Proof.
  revert i issue. induction names as [|name names IH]; intros i issue; cbn [fill_fields].
  - discriminate.
  - destruct (set_field issue name _) as [f'|issue'] eqn:E.
    + intros [= <-]. destruct (set_field_fatal _ _ _ _ E) as [H|[Hk ->]]; [auto|].
      right. exists name. cbn. auto.
    + intros H. destruct (IH _ _ H) as [Hi|(n & Hin & Hk & ->)]; [auto|].
      right. exists n. cbn. auto.
Qed.

Lemma extract_lines_fatal_kinds fl re name lines f :
  ending (extract_lines fl re name lines) = Some f ->
  invalid_integer f \/ invalid_subgroup re f.
Proof.
  induction lines as [|l lines IH]; cbn [extract_lines]; [discriminate|].
  destruct (extract_line fl re name l) as [f0|[issue|]] eqn:E; cbn [ending]; try exact IH.
  intros [= <-]. unfold extract_line in E.
  destruct (Regexp.FindAllSubmatch re l) as [|first rest]; [discriminate|].
  destruct (fill_fields _ _ _ _) as [f'|issue] eqn:Hfill; [|discriminate].
  injection E as <-. exact (fill_fields_fatal _ _ _ _ _ Hfill).
Qed.




(** ** Printing and reading back a number *)

Lemma all_bytes_app (f : ascii -> bool) (a b : string) :
  all_bytes f (a ++ b) = all_bytes f a && all_bytes f b.
Proof.
  induction a as [|c a IH]; simpl; [reflexivity|].
  rewrite IH. apply andb_assoc.
Qed.


Lemma digit_char_spec (d : Z) :
  0 <= d <= 9 ->
  is_digit (digit_char d) = true /\ byte_val (digit_char d) - 48 = d.
Proof.
  intros Hd.
  assert (H : d = 0 \/ d = 1 \/ d = 2 \/ d = 3 \/ d = 4 \/ d = 5 \/ d = 6 \/ d = 7
              \/ d = 8 \/ d = 9) by lia.
  repeat (destruct H as [->|H]; [split; reflexivity|]).
  subst d. split; reflexivity.
Qed.

Lemma utoa_fuel_spec (f : nat) (n : Z) (acc : string) :
  0 <= n < 2 ^ Z.of_nat (S f) ->
  exists ds,
    utoa_fuel (S f) n acc = ds ++ acc
    /\ ds <> "" /\ all_digits ds = true /\ dec_acc ds 0 = n.
Proof.
  revert n acc. induction f as [|f IH]; intros n acc Hn.
  - change (2 ^ Z.of_nat 1) with 2 in Hn.
    cbn [utoa_fuel]. replace (n <? 10) with true by (symmetry; apply Z.ltb_lt; lia).
    rewrite Z.mod_small by lia.
    destruct (digit_char_spec n ltac:(lia)) as [Hd Hv].
    exists (String (digit_char n) ""). cbn [String.append all_digits all_bytes dec_acc].
    rewrite Hd. repeat split; [discriminate | lia].
  - cbn [utoa_fuel]. destruct (Z.ltb_spec n 10) as [Hlt|Hge].
    + rewrite Z.mod_small by lia.
      destruct (digit_char_spec n ltac:(lia)) as [Hd Hv].
      exists (String (digit_char n) ""). cbn [String.append all_digits all_bytes dec_acc].
      rewrite Hd. repeat split; [discriminate | lia].
    + assert (Hdiv : 0 <= n / 10 < 2 ^ Z.of_nat (S f)).
      { split; [apply Z.div_pos; lia|].
        apply Z.div_lt_upper_bound; [lia|].
        rewrite (Nat2Z.inj_succ (S f)), Z.pow_succ_r in Hn by lia. lia. }
      destruct (IH (n / 10) (String (digit_char (n mod 10)) acc) Hdiv)
        as (ds & Heq & Hne & Hd & Hv).
      pose proof (Z.mod_pos_bound n 10 ltac:(lia)) as Hmod.
      destruct (digit_char_spec (n mod 10) ltac:(lia)) as [Hd' Hv'].
      exists (ds ++ String (digit_char (n mod 10)) "").
      rewrite sapp_assoc. cbn [String.append]. split; [exact Heq|].
      split; [destruct ds; [congruence | discriminate]|].
      split.
      * unfold all_digits in *. rewrite all_bytes_app, Hd. cbn [all_bytes].
        rewrite Hd'. reflexivity.
      * rewrite dec_acc_app, Hv. cbn [dec_acc]. rewrite Hv'.
        pose proof (Z.div_mod n 10 ltac:(lia)). lia.
Qed.

Lemma utoa_spec (n : Z) :
  0 <= n ->
  utoa n <> "" /\ all_digits (utoa n) = true /\ decimal_value (utoa n) = n.
Proof.
  intros Hn. unfold utoa.
  assert (Hb : 0 <= n < 2 ^ Z.of_nat (S (Z.to_nat (Z.log2 n)))).
  { split; [exact Hn|].
    rewrite Nat2Z.inj_succ, Z2Nat.id by apply Z.log2_nonneg.
    destruct (Z.eq_dec n 0) as [->|Hnz]; [reflexivity|].
    apply Z.log2_spec. lia. }
  destruct (utoa_fuel_spec _ n "" Hb) as (ds & Heq & Hne & Hd & Hv).
  rewrite Heq, sapp_nil_r. auto.
Qed.

(** What [%d] prints for a value of the 32-bit range, [ParseInt] reads
    back. *)
Lemma ParseInt_itoa (n : Z) :
  0 <= n <= 2 ^ 31 - 1 -> ParseInt (itoa n) 32 = Parsed n.
Proof.
  intros Hn. unfold itoa.
  replace (n <? 0) with false by (symmetry; apply Z.ltb_ge; lia).
  destruct (utoa_spec n ltac:(lia)) as (Hne & Hd & Hv).
  rewrite (ParseInt_digits _ Hne Hd), Hv.
  destruct (Z.leb_spec n (2 ^ 31 - 1)); [reflexivity | lia].
Qed.

(** ** Greedy repetition of a class *)

Section Munch.

Import Regexp.

Variable total : nat.
Variable cc : charclass.
Variable k : cont.

Lemma bt_class_cons (c : ascii) (s : string) (caps : captures) (k' : cont) :
  bt total (RClass cc) (String c s) caps k' = if class_mem cc c then k' s caps else None.
Proof. reflexivity. Qed.

Lemma bt_class_nil (caps : captures) (k' : cont) :
  bt total (RClass cc) "" caps k' = None.
Proof. reflexivity. Qed.




End Munch.



Lemma byte_val_inj (c d : ascii) : byte_val c = byte_val d -> c = d.
Proof.
  unfold byte_val. intros H. apply N2Z.inj in H.
  rewrite <- (ascii_N_embedding c), <- (ascii_N_embedding d), H. reflexivity.
Qed.


Lemma class_mem_not (d c : ascii) :
  Regexp.class_mem (Regexp.CharClass true [(byte_val d, byte_val d)]) c
  = negb (Ascii.eqb c d).
Proof.
  unfold Regexp.class_mem, Regexp.in_ranges. cbn. rewrite orb_false_r. f_equal.
  destruct (Ascii.eqb_spec c d) as [->|Hne].
  - rewrite !Z.leb_refl. reflexivity.
  - destruct (Z.leb_spec (byte_val d) (byte_val c)); [|reflexivity].
    destruct (Z.leb_spec (byte_val c) (byte_val d)); [|reflexivity].
    exfalso. apply Hne, byte_val_inj. lia.
Qed.


(** ** Lines the predefined pattern reads *)

Lemma bt_cat total r1 r2 s caps (k : Regexp.cont) :
  Regexp.bt total (Regexp.RCat r1 r2) s caps k
  = Regexp.bt total r1 s caps (fun s' caps' => Regexp.bt total r2 s' caps' k).
Proof. reflexivity. Qed.

Lemma bt_capture total i n r s caps (k : Regexp.cont) :
  Regexp.bt total (Regexp.RCapture i n r) s caps k
  = Regexp.bt total r s caps
      (fun s' caps' => k s' (Regexp.set_cap i (take_str (slen s - slen s') s) caps')).
Proof. reflexivity. Qed.








(** ** Rendering, extracting, rendering again *)





(** ** What a run keeps *)

Lemma map_flat_fresh {A} (f : string -> pc -> list A) (m : gmap string pc) n q :
  m !! n = None -> map_flat f (<[n := q]> m) ≡ₚ f n q ++ map_flat f m.
Proof.
  intros Hn. unfold map_flat.
  rewrite (Permutation_flat_map _ (map_to_list_insert m n q Hn)). reflexivity.
Qed.

(** Moving one goroutine from [p] to [q] exchanges its share of the sum. *)
Lemma map_flat_insert {A} (f : string -> pc -> list A) (m : gmap string pc) n p q :
  m !! n = Some p ->
  map_flat f (<[n := q]> m) ++ f n p ≡ₚ map_flat f m ++ f n q.
Proof.
  intros Hn.
  rewrite <- (insert_delete_id m n p Hn) at 2.
  rewrite <- (insert_delete_eq m n q).
  rewrite !map_flat_fresh by apply lookup_delete_eq.
  set (D := map_flat f (delete n m)).
  rewrite (Permutation_app_comm (f n q ++ D) (f n p)).
  rewrite (Permutation_app_comm (f n q) D).
  rewrite app_assoc. reflexivity.
Qed.

Lemma all_sent_insert work (m : gmap string pc) n p q :
  m !! n = Some p -> all_sent work (<[n := q]> m) ≡ₚ all_sent work m.
Proof.
  intros Hn. unfold all_sent.
  eapply Permutation_app_inv_r.
  apply (map_flat_insert (fun name _ => sent (work name)) m n p q Hn).
Qed.

(** A step that leaves the pending issues of its goroutine as they are
    leaves the sum as it is. *)
Lemma pending_insert_same work (m : gmap string pc) n p q :
  m !! n = Some p -> pending work n q = pending work n p ->
  map_flat (pending work) (<[n := q]> m) ≡ₚ map_flat (pending work) m.
Proof.
  intros Hn Hsame. eapply Permutation_app_inv_r.
  rewrite (map_flat_insert (pending work) m n p q Hn), Hsame. reflexivity.
Qed.

Lemma is_Some_insert_keep (m : gmap string pc) n q name :
  is_Some (m !! n) -> is_Some (m !! name) -> is_Some (<[n := q]> m !! name).
Proof.
  intros Hn Hname. destruct (decide (n = name)) as [->|Hne].
  - rewrite lookup_insert_eq. eauto.
  - rewrite lookup_insert_ne by exact Hne. exact Hname.
Qed.

Section Run.

Variable K : nat.
Variable work : string -> trace.

Lemma run_inv_start (names : gmap string pc) :
  map_Forall (fun _ p => p = Waiting) names -> run_inv work (start names).
Proof.
  intros Hall. split; cbn [tasks wg queue exited start].
  - unfold count_pc. f_equal. apply map_filter_id.
    intros n p Hp. rewrite (Hall n p Hp). reflexivity.
  - cbn [app]. unfold all_sent, map_flat.
    assert (Hl : Forall (fun kv : string * pc => kv.2 = Waiting) (map_to_list names)).
    { apply Forall_forall. intros [n p] Hin. apply elem_of_map_to_list in Hin.
      exact (Hall n p Hin). }
    induction Hl as [|[n p] l Hp _ IH]; [reflexivity|].
    cbn in Hp. subst p. cbn [flat_map fst snd pending]. rewrite IH. reflexivity.
  - intros n p Hp. rewrite (Hall n p Hp). exact I.
  - discriminate.
  - unfold issuesCap. cbn. lia.
Qed.

(** One goroutine moves from [p] to [q]: the invariant stays when the
    wait-group counter and the channel of issues change with it. *)
Lemma run_inv_move (s : state) n p q (qu : list Issue) (sm w : nat) :
  run_inv work s -> tasks s !! n = Some p ->
  pc_ok work n q ->
  (w + bit (not_finished p) = wg s + bit (not_finished q))%nat ->
  qu ++ pending work n q ≡ₚ queue s ++ pending work n p ->
  Z.of_nat (length qu) <= issuesCap ->
  run_inv work (State (<[n := q]> (tasks s)) sm qu w None).
Proof.
  intros [Hwg Hqueue Hpc Hexit Hcap] Hn Hq Hw Hqu Hlen.
  split; cbn [tasks wg queue exited].
  - pose proof (count_pc_insert not_finished _ _ _ q Hn) as Hc. lia.
  - rewrite (all_sent_insert work _ n p q Hn), <- Hqueue.
    apply (Permutation_app_inv_r (pending work n p)).
    rewrite <- !app_assoc.
    rewrite (map_flat_insert (pending work) _ n p q Hn).
    rewrite (Permutation_app_comm (map_flat (pending work) (tasks s)) (pending work n q)).
    rewrite (Permutation_app_comm (map_flat (pending work) (tasks s)) (pending work n p)).
    rewrite !app_assoc, Hqu. reflexivity.
  - apply map_Forall_insert_2; assumption.
  - discriminate.
  - exact Hlen.
Qed.

Lemma run_inv_step (s s' : state) (e : event) :
  run_inv work s -> step K work s e = Some s' -> run_inv work s'.
Proof.
  intros Hinv Hstep. pose proof Hinv as [Hwg Hqueue Hpc Hexit Hcap].
  unfold step in Hstep. destruct (exited s) eqn:Hex; [discriminate|].
  destruct e as [n|n|n|n|n|n|n r].
  - destruct (tasks s !! n) as [[| | | |]|] eqn:Hn; try discriminate.
    destruct (sem s <? K)%nat; [|discriminate]. injection Hstep as <-.
    apply (run_inv_move s n Waiting);
      [exact Hinv | exact Hn | reflexivity | reflexivity | reflexivity | exact Hcap].
  - destruct (tasks s !! n) as [[|[|i todo] fin| | |]|] eqn:Hn; try discriminate.
    destruct (Z.ltb_spec (Z.of_nat (length (queue s))) issuesCap) as [Hlt|]; [|discriminate].
    injection Hstep as <-.
    apply (run_inv_move s n (Running (i :: todo) fin));
      [exact Hinv | exact Hn | exact (Hpc n _ Hn) | reflexivity | |].
    + cbn [pending]. rewrite <- app_assoc. reflexivity.
    + rewrite length_app. cbn [length]. lia.
  - destruct (tasks s !! n) as [[|[|i todo] [f|]| | |]|] eqn:Hn; try discriminate.
    injection Hstep as <-. unfold set_pc. rewrite Hex.
    apply (run_inv_move s n (Running [] None));
      [exact Hinv | exact Hn | | reflexivity | reflexivity | exact Hcap].
    symmetry. exact (Hpc n _ Hn).
  - destruct (tasks s !! n) as [[|[|i todo] [f|]| | |]|] eqn:Hn; try discriminate.
    injection Hstep as <-. split; cbn [tasks wg queue exited]; try assumption.
    intros f' [= <-]. exists n. split; [rewrite Hn; eauto|].
    symmetry. exact (Hpc n _ Hn).
  - destruct (tasks s !! n) as [[| | | |]|] eqn:Hn; try discriminate.
    destruct (sem s) as [|k]; [discriminate|]. injection Hstep as <-.
    apply (run_inv_move s n Releasing);
      [exact Hinv | exact Hn | exact (Hpc n _ Hn) | reflexivity | reflexivity | exact Hcap].
  - destruct (tasks s !! n) as [[| | | |]|] eqn:Hn; try discriminate.
    injection Hstep as <-.
    pose proof (count_pc_insert not_finished _ _ _ Finished Hn) as Hc.
    apply (run_inv_move s n Signalling);
      [exact Hinv | exact Hn | exact (Hpc n _ Hn) | | reflexivity | exact Hcap].
    cbn in *. lia.
  - destruct K as [|k]; [|discriminate].
    destruct (tasks s !! n) as [[| | | |]|] eqn:Hn; try discriminate.
    destruct (tasks s !! r) as [[| | | |]|] eqn:Hr; try discriminate.
    injection Hstep as <-.
    assert (Hne : n <> r) by congruence.
    unfold set_pc. cbn [tasks sem queue wg exited]. rewrite Hex.
    set (s1 := State (<[n := Running (sent (work n)) (ending (work n))]> (tasks s))
                     (sem s) (queue s) (wg s) None).
    assert (H1 : run_inv work s1).
    { apply (run_inv_move s n Waiting);
        [exact Hinv | exact Hn | reflexivity | reflexivity | reflexivity | exact Hcap]. }
    assert (Hr1 : tasks s1 !! r = Some Releasing).
    { cbn. rewrite lookup_insert_ne by exact Hne. exact Hr. }
    exact (run_inv_move s1 r Releasing Signalling (queue s) (sem s) (wg s) H1 Hr1
             (Hpc r _ Hr) eq_refl (Permutation_refl _) Hcap).
Qed.

Lemma run_inv_run (sched : list event) (s s' : state) :
  run_inv work s -> run K work s sched = Some s' -> run_inv work s'.
Proof.
  revert s. induction sched as [|e sched IH]; intros s Hinv; cbn [run].
  - intros [= <-]. exact Hinv.
  - destruct (step K work s e) as [s1|] eqn:Hstep; [|discriminate].
    apply IH. eapply run_inv_step; eassumption.
Qed.

End Run.

(** ** What [main] prints *)

Lemma main_printed chanMax fl sh sched lines :
  main chanMax fl sh sched = Some (Printed lines) ->
  exists s,
    run (Z.to_nat (concurrencyFlag fl)) (work_of fl sh) (start (goroutines fl)) sched
    = Some s
    /\ exited s = None /\ wg s = 0%nat
    /\ lines = report (exclude_filter fl) (queue s).
Proof.
  unfold main, exclude_filter, goroutines.
  destruct (String.eqb (excludeFlag fl) "");
    [|destruct (Regexp.Compile (excludeFlag fl)); [|discriminate]];
    cbn [option_map];
    (destruct (_ || _); [discriminate|]);
    (destruct (forallb _ _); cbn [negb]; [|discriminate]);
    (destruct (run _ _ _ sched) as [s|]; [|discriminate]);
    (destruct (exited s) eqn:Hex; [discriminate|]);
    (destruct (wg s) eqn:Hwg; [|discriminate]);
    intros [= <-]; exists s; auto.
Qed.

Lemma main_exited chanMax fl sh sched f :
  main chanMax fl sh sched = Some (Exited f) ->
  exists s,
    run (Z.to_nat (concurrencyFlag fl)) (work_of fl sh) (start (goroutines fl)) sched
    = Some s
    /\ exited s = Some f.
Proof.
  unfold main, goroutines.
  destruct (String.eqb (excludeFlag fl) "");
    [|destruct (Regexp.Compile (excludeFlag fl)); [|discriminate]];
    cbn [option_map];
    (destruct (_ || _); [discriminate|]);
    (destruct (forallb _ _); cbn [negb]; [|discriminate]);
    (destruct (run _ _ _ sched) as [s|]; [|discriminate]);
    (destruct (exited s) eqn:Hex; [|destruct (wg s); discriminate]);
    intros [= <-]; exists s; auto.
Qed.

Lemma main_not_panicked chanMax fl sh sched :
  main chanMax fl sh sched <> Some Panicked ->
  forallb (fun kv : string * string => has_colon kv.2) (map_to_list (enabled fl)) = true.
Proof.
  unfold main.
  destruct (String.eqb (excludeFlag fl) "");
    [|destruct (Regexp.Compile (excludeFlag fl));
      [|intros H; exfalso; apply H; reflexivity]];
    cbn [option_map];
    (destruct (_ || _); [intros H; exfalso; apply H; reflexivity|]);
    (destruct (forallb _ _); cbn [negb];
     intros H; [reflexivity | exfalso; apply H; reflexivity]).
Qed.

Lemma goroutines_start fl sh : run_inv (work_of fl sh) (start (goroutines fl)).
Proof.
  apply run_inv_start. intros n p. unfold goroutines. rewrite lookup_fmap.
  destruct (enabled fl !! n); cbn; congruence.
Qed.

(** A step gives no goroutine and takes none away. *)
Lemma step_names K work s e s' name :
  step K work s e = Some s' ->
  is_Some (tasks s' !! name) <-> is_Some (tasks s !! name).
Proof.
  assert (Hins : forall n p q, tasks s !! n = Some p ->
            is_Some (<[n := q]> (tasks s) !! name) <-> is_Some (tasks s !! name)).
  { intros n p q Hn. destruct (decide (n = name)) as [->|Hne].
    - rewrite lookup_insert_eq, Hn. split; eauto.
    - rewrite lookup_insert_ne by exact Hne. reflexivity. }
  unfold step. destruct (exited s); [discriminate|].
  destruct e as [n|n|n|n|n|n|n r].
  - destruct (tasks s !! n) as [[| | | |]|] eqn:Hn; try discriminate.
    destruct (sem s <? K)%nat; [|discriminate]. intros [= <-]. eapply Hins, Hn.
  - destruct (tasks s !! n) as [[|[|i todo] fin| | |]|] eqn:Hn; try discriminate.
    destruct (Z.of_nat (length (queue s)) <? issuesCap); [|discriminate].
    intros [= <-]. eapply Hins, Hn.
  - destruct (tasks s !! n) as [[|[|i todo] [f|]| | |]|] eqn:Hn; try discriminate.
    intros [= <-]. eapply Hins, Hn.
  - destruct (tasks s !! n) as [[|[|i todo] [f|]| | |]|] eqn:Hn; try discriminate.
    intros [= <-]. reflexivity.
  - destruct (tasks s !! n) as [[| | | |]|] eqn:Hn; try discriminate.
    destruct (sem s); [discriminate|]. intros [= <-]. eapply Hins, Hn.
  - destruct (tasks s !! n) as [[| | | |]|] eqn:Hn; try discriminate.
    intros [= <-]. eapply Hins, Hn.
  - destruct K; [|discriminate].
    destruct (tasks s !! n) as [[| | | |]|] eqn:Hn; try discriminate.
    destruct (tasks s !! r) as [[| | | |]|] eqn:Hr; try discriminate.
    intros [= <-]. unfold set_pc. cbn [tasks].
    destruct (decide (r = name)) as [->|Hne].
    + rewrite lookup_insert_eq, Hr. split; eauto.
    + rewrite lookup_insert_ne by exact Hne. eapply Hins, Hn.
Qed.

Lemma step_all_sent K work s e s' :
  step K work s e = Some s' -> all_sent work (tasks s') ≡ₚ all_sent work (tasks s).
Proof.
  unfold step. destruct (exited s); [discriminate|].
  destruct e as [n|n|n|n|n|n|n r].
  - destruct (tasks s !! n) as [[| | | |]|] eqn:Hn; try discriminate.
    destruct (sem s <? K)%nat; [|discriminate]. intros [= <-]. eapply all_sent_insert, Hn.
  - destruct (tasks s !! n) as [[|[|i todo] fin| | |]|] eqn:Hn; try discriminate.
    destruct (Z.of_nat (length (queue s)) <? issuesCap); [|discriminate].
    intros [= <-]. eapply all_sent_insert, Hn.
  - destruct (tasks s !! n) as [[|[|i todo] [f|]| | |]|] eqn:Hn; try discriminate.
    intros [= <-]. eapply all_sent_insert, Hn.
  - destruct (tasks s !! n) as [[|[|i todo] [f|]| | |]|] eqn:Hn; try discriminate.
    intros [= <-]. reflexivity.
  - destruct (tasks s !! n) as [[| | | |]|] eqn:Hn; try discriminate.
    destruct (sem s); [discriminate|]. intros [= <-]. eapply all_sent_insert, Hn.
  - destruct (tasks s !! n) as [[| | | |]|] eqn:Hn; try discriminate.
    intros [= <-]. eapply all_sent_insert, Hn.
  - destruct K; [|discriminate].
    destruct (tasks s !! n) as [[| | | |]|] eqn:Hn; try discriminate.
    destruct (tasks s !! r) as [[| | | |]|] eqn:Hr; try discriminate.
    intros [= <-]. unfold set_pc. cbn [tasks].
    rewrite (all_sent_insert work _ r Releasing Signalling).
    + eapply all_sent_insert, Hn.
    + rewrite lookup_insert_ne by congruence. exact Hr.
Qed.

Lemma run_names K work sched s s' name :
  run K work s sched = Some s' ->
  is_Some (tasks s' !! name) <-> is_Some (tasks s !! name).
Proof.
  revert s. induction sched as [|e sched IH]; intros s; cbn [run].
  - intros [= <-]. reflexivity.
  - destruct (step K work s e) as [s1|] eqn:Hstep; [|discriminate].
    intros Hrun. rewrite (IH s1 Hrun). eapply step_names, Hstep.
Qed.

Lemma run_all_sent K work sched s s' :
  run K work s sched = Some s' -> all_sent work (tasks s') ≡ₚ all_sent work (tasks s).
Proof.
  revert s. induction sched as [|e sched IH]; intros s; cbn [run].
  - intros [= <-]. reflexivity.
  - destruct (step K work s e) as [s1|] eqn:Hstep; [|discriminate].
    intros Hrun. rewrite (IH s1 Hrun). eapply step_all_sent, Hstep.
Qed.

(** With the wait group at zero every goroutine has finished, and the
    channel holds what they sent, all of it. *)
Lemma finished_state work s :
  run_inv work s -> wg s = 0%nat ->
  map_Forall (fun _ p => p = Finished) (tasks s)
  /\ queue s ≡ₚ all_sent work (tasks s).
Proof.
  intros [Hwg Hqueue Hpc Hexit Hcap] Hzero.
  assert (Hfin : map_Forall (fun _ p => p = Finished) (tasks s)).
  { rewrite Hzero in Hwg. unfold count_pc in Hwg.
    apply map_size_empty_inv in Hwg.
    intros n p Hp.
    pose proof (proj1 (map_empty_filter _ _) Hwg n p Hp) as Hnot.
    destruct p; cbn in Hnot; congruence. }
  split; [exact Hfin|].
  rewrite <- Hqueue.
  assert (Hnil : map_flat (pending work) (tasks s) = []).
  { unfold map_flat.
    assert (Hl : Forall (fun kv : string * pc => kv.2 = Finished) (map_to_list (tasks s))).
    { apply Forall_forall. intros [n p] Hin. apply elem_of_map_to_list in Hin.
      exact (Hfin n p Hin). }
    induction Hl as [|[n p] l Hp _ IH]; [reflexivity|].
    cbn in Hp. subst p. cbn [flat_map fst snd pending app]. exact IH. }
  rewrite Hnil, app_nil_r. reflexivity.
Qed.

Lemma report_perm filter (l l' : list Issue) :
  l ≡ₚ l' -> report filter l ≡ₚ report filter l'.
Proof. intros H. unfold report. apply Permutation_flat_map, H. Qed.

(** X1.  When [main] returns, it has printed the issues of the enabled
    linters that the [--exclude] filter lets through, every one of them
    once and nothing else, whatever the interleaving of the goroutines; and
    no enabled linter has ended in a fatal error. *)
Theorem main_prints_each_issue_once chanMax fl sh sched lines :
  main chanMax fl sh sched = Some (Printed lines) ->
  lines ≡ₚ report (exclude_filter fl) (issues_of fl sh)
  /\ forall name description,
       enabled fl !! name = Some description -> ending (work_of fl sh name) = None.
Proof.
  intros Hmain.
  destruct (main_printed chanMax fl sh sched lines Hmain) as (s & Hrun & Hex & Hwg & ->).
  pose proof (run_inv_run _ _ _ _ _ (goroutines_start fl sh) Hrun) as Hinv.
  destruct (finished_state _ s Hinv Hwg) as [Hfin Hqueue].
  split.
  - apply report_perm. rewrite Hqueue. unfold issues_of.
    exact (run_all_sent _ _ _ _ _ Hrun).
  - intros name description Hname.
    assert (Hs : is_Some (tasks s !! name)).
    { apply (run_names _ _ _ _ _ name Hrun). cbn [tasks start]. unfold goroutines.
      rewrite lookup_fmap, Hname. cbn. eauto. }
    destruct Hs as [p Hp]. pose proof (Hfin name p Hp) as ->.
    exact (inv_pc _ _ Hinv name Finished Hp).
Qed.

Lemma main_prints_each_issue_once_witness :
  let fl := {| lintersFlag := defaultLinters;
               linterMessageOverrideFlag := defaultMessageOverride;
               linterSeverityFlag := defaultSeverity;
               pathArg := "."; fastFlag := true;
               disableLintersFlag := ["gotype"; "defercheck"];
               concurrencyFlag := 1; excludeFlag := "shadow" |} in
  let sh : shell := fun command =>
    if String.eqb command "golint ." then ("a.go:2:1: y" ++ String nl "", None)
    else ("b.go:1: x shadows" ++ String nl ("b.go:9: z" ++ String nl ""), Some (ExitError 1)) in
  let sched := [Admit "vet"; Emit "vet"; Emit "vet"; Return "vet"; Release "vet";
                Admit "golint"; Done "vet"; Emit "golint"; Return "golint";
                Release "golint"; Done "golint"] in
  main (2 ^ 31 - 1) fl sh sched
  = Some (Printed ["b.go:9::error: z" ++ String nl ""; "a.go:2:1:warning: y" ++ String nl ""])
  /\ ["b.go:9::error: z" ++ String nl ""; "a.go:2:1:warning: y" ++ String nl ""]
     ≡ₚ report (exclude_filter fl) (issues_of fl sh).
Proof.
  intros fl sh sched.
  assert (Hmain : main (2 ^ 31 - 1) fl sh sched
                  = Some (Printed ["b.go:9::error: z" ++ String nl "";
                                   "a.go:2:1:warning: y" ++ String nl ""]))
    by (vm_compute; reflexivity).
  split; [exact Hmain|].
  exact (proj1 (main_prints_each_issue_once (2 ^ 31 - 1) fl sh sched _ Hmain)).
Defined.

(** An error that has ended the process is the ending of some goroutine's
    [executeLinter]. *)
Lemma run_exit_source K fl sh sched s f :
  run K (work_of fl sh) (start (goroutines fl)) sched = Some s ->
  exited s = Some f ->
  exists name description command pattern,
    enabled fl !! name = Some description
    /\ split_colon description = (command, Some pattern)
    /\ ending (executeLinter fl sh name command pattern (pathArg fl)) = Some f.
Proof.
  intros Hrun Hex.
  pose proof (run_inv_run _ _ _ _ _ (goroutines_start fl sh) Hrun) as Hinv.
  destruct (inv_exit _ _ Hinv f Hex) as (name & Hs & Hend).
  apply (run_names _ _ _ _ _ name Hrun) in Hs. cbn [tasks start] in Hs.
  unfold goroutines in Hs. rewrite lookup_fmap in Hs.
  unfold work_of in Hend.
  destruct (enabled fl !! name) as [description|] eqn:Hname; [|discriminate Hend].
  destruct (split_colon description) as [command [pattern|]] eqn:Hsplit;
    [|discriminate Hend].
  exists name, description, command, pattern. auto.
Qed.

(** X2.  When a run ends in a fatal error, the error is the one some
    enabled linter's [executeLinter] ends with: nothing else in [main] ends
    the process that way, and a disabled linter cannot. *)
Theorem main_exit_comes_from_a_linter chanMax fl sh sched f :
  main chanMax fl sh sched = Some (Exited f) ->
  exists name description command pattern,
    enabled fl !! name = Some description
    /\ split_colon description = (command, Some pattern)
    /\ ending (executeLinter fl sh name command pattern (pathArg fl)) = Some f.
Proof.
  intros Hmain.
  destruct (main_exited chanMax fl sh sched f Hmain) as (s & Hrun & Hex).
  exact (run_exit_source _ fl sh sched s f Hrun Hex).
Qed.

Lemma main_exit_comes_from_a_linter_witness :
  let fl := {| lintersFlag := defaultLinters;
               linterMessageOverrideFlag := defaultMessageOverride;
               linterSeverityFlag := defaultSeverity;
               pathArg := "."; fastFlag := true;
               disableLintersFlag := ["gotype"; "defercheck"; "vet"];
               concurrencyFlag := 4; excludeFlag := "" |} in
  let sh : shell := fun _ => ("a.go:2:99999999999: y", None) in
  let f := Fatal "col matched invalid integer" (Some (NumErr ErrRange)) in
  main (2 ^ 31 - 1) fl sh [Admit "golint"; Die "golint"] = Some (Exited f)
  /\ exists name description command pattern,
       enabled fl !! name = Some description
       /\ split_colon description = (command, Some pattern)
       /\ ending (executeLinter fl sh name command pattern (pathArg fl)) = Some f.
Proof.
  intros fl sh f.
  assert (Hmain : main (2 ^ 31 - 1) fl sh [Admit "golint"; Die "golint"] = Some (Exited f))
    by (vm_compute; reflexivity).
  split; [exact Hmain|].
  exact (main_exit_comes_from_a_linter (2 ^ 31 - 1) fl sh _ f Hmain).
Defined.

(** X3.  With a concurrency of 0 the channel [concurrency] has no buffer
    and no goroutine gets past its send on it: as soon as one linter is
    enabled, no interleaving lets [main] print its report or a linter end
    the process. *)
Theorem zero_concurrency_never_ends chanMax fl sh sched :
  concurrencyFlag fl = 0 -> enabled fl <> ∅ ->
  main chanMax fl sh sched = None \/ main chanMax fl sh sched = Some Panicked.
Proof.
  intros HK Hne. unfold main.
  destruct (String.eqb (excludeFlag fl) "");
    [|destruct (Regexp.Compile (excludeFlag fl)) as [re|]; [|right; reflexivity]];
    cbn [option_map];
    (destruct (_ || _); [right; reflexivity|]);
    (destruct (forallb _ _); cbn [negb]; [|right; reflexivity]); left; rewrite HK;
    change (Z.to_nat 0) with 0%nat.
  all: destruct sched as [|e sched]; cbn [run].
  all: try (cbn [exited wg start]; rewrite map_size_fmap;
            destruct (size (enabled fl)) eqn:Hsize;
            [apply map_size_empty_inv in Hsize; contradiction | reflexivity]).
  all: assert (Hstep : step 0 (work_of fl sh)
                         (start ((fun _ => Waiting) <$> enabled fl)) e = None);
    [| rewrite Hstep; reflexivity].
  all: unfold step; cbn [exited tasks start sem];
    destruct e as [n|n|n|n|n|n|n r]; rewrite ?lookup_fmap;
    try (destruct (enabled fl !! n); reflexivity).
  all: destruct (enabled fl !! n); cbn; [|reflexivity];
    destruct (enabled fl !! r); reflexivity.
Qed.

Lemma zero_concurrency_never_ends_witness :
  let fl := {| lintersFlag := defaultLinters;
               linterMessageOverrideFlag := defaultMessageOverride;
               linterSeverityFlag := defaultSeverity;
               pathArg := "."; fastFlag := false; disableLintersFlag := [];
               concurrencyFlag := 0; excludeFlag := "" |} in
  let sh : shell := fun _ => ("", None) in
  enabled fl <> ∅
  /\ (main (2 ^ 31 - 1) fl sh [Admit "golint"] = None
      \/ main (2 ^ 31 - 1) fl sh [Admit "golint"] = Some Panicked).
Proof.
  intros fl sh.
  assert (Hne : enabled fl <> ∅).
  { intros H. assert (Hl : enabled fl !! "golint" = None) by (rewrite H; reflexivity).
    vm_compute in Hl. discriminate Hl. }
  split; [exact Hne|].
  exact (zero_concurrency_never_ends (2 ^ 31 - 1) fl sh [Admit "golint"] eq_refl Hne).
Defined.



Lemma report_length filter (l : list Issue) :
  (length (report filter l) <= length l)%nat.
Proof.
  unfold report. induction l as [|issue l IH]; [reflexivity|].
  cbn [flat_map]. rewrite length_app. cbn [length].
  destruct filter as [re|]; [destruct (MatchString re _)|]; cbn [length]; lia.
Qed.

(** X4.  The channel of issues has room for 100000 and is read only after
    every goroutine has finished: a run that returns has printed at most
    100000 lines, and the enabled linters have sent at most 100000 issues
    between them (with more, [main] never gets to its report). *)
Theorem main_prints_at_most_100000 chanMax fl sh sched lines :
  main chanMax fl sh sched = Some (Printed lines) ->
  Z.of_nat (length lines) <= 100000
  /\ Z.of_nat (length (issues_of fl sh)) <= 100000.
Proof.
  intros Hmain.
  destruct (main_printed chanMax fl sh sched lines Hmain) as (s & Hrun & Hex & Hwg & ->).
  pose proof (run_inv_run _ _ _ _ _ (goroutines_start fl sh) Hrun) as Hinv.
  destruct (finished_state _ s Hinv Hwg) as [Hfin Hqueue].
  pose proof (inv_cap _ _ Hinv) as Hcap. unfold issuesCap in Hcap.
  pose proof (report_length (exclude_filter fl) (queue s)) as Hlen.
  split; [lia|].
  unfold issues_of. rewrite <- (run_all_sent _ _ _ _ _ Hrun), <- Hqueue. exact Hcap.
Qed.

Lemma main_prints_at_most_100000_witness :
  let fl := {| lintersFlag := defaultLinters;
               linterMessageOverrideFlag := defaultMessageOverride;
               linterSeverityFlag := defaultSeverity;
               pathArg := "."; fastFlag := true;
               disableLintersFlag := ["gotype"; "defercheck"; "vet"];
               concurrencyFlag := 4; excludeFlag := "" |} in
  let sh : shell := fun _ => ("a.go:2:1: y", None) in
  let sched := [Admit "golint"; Emit "golint"; Return "golint"; Release "golint";
                Done "golint"] in
  main (2 ^ 31 - 1) fl sh sched = Some (Printed ["a.go:2:1:warning: y" ++ String nl ""])
  /\ Z.of_nat (length ["a.go:2:1:warning: y" ++ String nl ""]) <= 100000
  /\ Z.of_nat (length (issues_of fl sh)) <= 100000.
Proof.
  intros fl sh sched.
  assert (Hmain : main (2 ^ 31 - 1) fl sh sched
                  = Some (Printed ["a.go:2:1:warning: y" ++ String nl ""]))
    by (vm_compute; reflexivity).
  split; [exact Hmain|].
  exact (main_prints_at_most_100000 (2 ^ 31 - 1) fl sh sched _ Hmain).
Defined.

(** ** Well-formed descriptions *)

Lemma well_formed_inv description :
  well_formed description = true ->
  exists command pattern re,
    split_colon description = (command, Some pattern)
    /\ Regexp.Compile (default pattern (predefinedPatterns !! pattern)) = Some re
    /\ forallb known_name (Regexp.SubexpNames re) = true.
Proof.
  unfold well_formed.
  destruct (split_colon description) as [command [pattern|]]; [|discriminate].
  destruct (Regexp.Compile _) as [re|] eqn:Hre; [|discriminate].
  intros H. exists command, pattern, re. auto.
Qed.

Lemma enabled_lookup fl name description :
  enabled fl !! name = Some description -> lintersFlag fl !! name = Some description.
Proof. unfold enabled. intros H. apply map_lookup_filter_Some in H. tauto. Qed.

(** X5.  When the concurrency is a capacity [make] accepts (not negative
    and not above the limit [chanMax] of the platform), every linter
    description has a colon and a pattern that compiles with group names
    the [switch] knows, and [--exclude] is empty or compiles, a run never
    panics, and the only fatal error that can end it is a "matched invalid
    integer" one. *)
Theorem well_formed_run_fails_only_on_integers chanMax fl sh sched :
  0 <= concurrencyFlag fl <= chanMax ->
  map_Forall (fun _ description => well_formed description = true) (lintersFlag fl) ->
  excludeFlag fl = "" \/ is_Some (Regexp.Compile (excludeFlag fl)) ->
  main chanMax fl sh sched <> Some Panicked
  /\ forall f, main chanMax fl sh sched = Some (Exited f) -> invalid_integer f.
Proof.
  intros Hcap Hwf Hexcl. split.
  - unfold main.
    replace ((concurrencyFlag fl <? 0) || (chanMax <? concurrencyFlag fl)) with false
      by (symmetry; apply orb_false_intro; apply Z.ltb_ge; lia).
    assert (Hcolon : forallb (fun kv : string * string => has_colon kv.2)
                       (map_to_list (enabled fl)) = true).
    { apply forallb_forall. intros [name description] Hin.
      apply list_elem_of_In, elem_of_map_to_list, enabled_lookup in Hin.
      destruct (well_formed_inv _ (Hwf name description Hin)) as (c & p & re & Hs & _).
      unfold has_colon. cbn [snd]. rewrite Hs. reflexivity. }
    rewrite Hcolon. cbn [negb].
    assert (Hfilter : forall o : option (option Regexp.regex), o <> None ->
              match o with
              | Some filter =>
                  match run (Z.to_nat (concurrencyFlag fl)) (work_of fl sh)
                          (start ((fun _ => Waiting) <$> enabled fl)) sched with
                  | Some s =>
                      match exited s with
                      | Some f => Some (Exited f)
                      | None => match wg s with
                                | O => Some (Printed (report filter (queue s)))
                                | S _ => None
                                end
                      end
                  | None => None
                  end
              | None => Some Panicked
              end <> Some Panicked).
    { intros [filter|] Ho; [|congruence].
      destruct (run _ _ _ sched) as [s|]; [|discriminate].
      destruct (exited s); [discriminate|]. destruct (wg s); discriminate. }
    apply Hfilter.
    destruct Hexcl as [-> | [re Hre]]; [cbn; discriminate|].
    destruct (String.eqb (excludeFlag fl) ""); [discriminate|].
    rewrite Hre. discriminate.
  - intros f Hmain.
    destruct (main_exited chanMax fl sh sched f Hmain) as (s & Hrun & Hex).
    destruct (run_exit_source _ fl sh sched s f Hrun Hex)
      as (name & description & command & pattern & Hname & Hsplit & Hend).
    destruct (well_formed_inv _ (Hwf name description (enabled_lookup _ _ _ Hname)))
      as (c & p & re & Hs & Hre & Hknown).
    rewrite Hsplit in Hs. injection Hs as <- <-.
    unfold executeLinter in Hend. rewrite Hre in Hend.
    destruct (sh _) as [out [[status|reason]|]]; cbn in Hend;
      try discriminate Hend; eapply extract_lines_known; eassumption.
Qed.

Lemma defaultLinters_well_formed :
  map_Forall (fun _ description => well_formed description = true) defaultLinters.
Proof.
  unfold defaultLinters.
  repeat (apply map_Forall_insert_2; [vm_compute; reflexivity|]).
  apply map_Forall_empty.
Defined.

Lemma well_formed_run_fails_only_on_integers_witness :
  let sh : shell := fun _ => ("a.go:2:99999999999: y", None) in
  0 <= concurrencyFlag defaultFlags <= 2 ^ 31 - 1
  /\ map_Forall (fun _ description => well_formed description = true)
                (lintersFlag defaultFlags)
  /\ (excludeFlag defaultFlags = "" \/ is_Some (Regexp.Compile (excludeFlag defaultFlags)))
  /\ main (2 ^ 31 - 1) defaultFlags sh [Admit "golint"; Die "golint"] <> Some Panicked
  /\ forall f, main (2 ^ 31 - 1) defaultFlags sh [Admit "golint"; Die "golint"]
               = Some (Exited f) ->
               invalid_integer f.
Proof.
  intros sh.
  assert (Hcap : 0 <= concurrencyFlag defaultFlags <= 2 ^ 31 - 1) by (cbn; lia).
  split; [exact Hcap|].
  split; [exact defaultLinters_well_formed|].
  split; [left; reflexivity|].
  exact (well_formed_run_fails_only_on_integers (2 ^ 31 - 1) defaultFlags sh
           [Admit "golint"; Die "golint"] Hcap defaultLinters_well_formed
           (or_introl eq_refl)).
Defined.

(** ** A schedule that always works *)

Lemma run_app K work s (a b : list event) :
  run K work s (a ++ b)
  = match run K work s a with
    | Some s' => run K work s' b
    | None => None
    end.
Proof.
  revert s. induction a as [|e a IH]; intros s; cbn [run app]; [reflexivity|].
  destruct (step K work s e); [apply IH | reflexivity].
Qed.

(** A goroutine inside [executeLinter] gets all its issues through as long
    as the channel has room for them. *)
Lemma emit_all K work n fin (todo : list Issue) :
  forall s,
    tasks s !! n = Some (Running todo fin) -> exited s = None ->
    Z.of_nat (length (queue s) + length todo) <= issuesCap ->
    run K work s (repeat (Emit n) (length todo))
    = Some (State (<[n := Running [] fin]> (tasks s)) (sem s) (queue s ++ todo)
                  (wg s) None).
Proof.
  induction todo as [|i todo IH]; intros s Hn Hex Hroom.
  - cbn [length repeat run]. rewrite insert_id by exact Hn. rewrite app_nil_r.
    destruct s; cbn in *. subst. reflexivity.
  - cbn [length repeat run]. unfold step at 1. rewrite Hex, Hn.
    replace (Z.of_nat (length (queue s)) <? issuesCap) with true
      by (symmetry; apply Z.ltb_lt; cbn [length] in Hroom; lia).
    rewrite IH; cbn [tasks sem queue wg exited].
    + rewrite insert_insert_eq, <- app_assoc. reflexivity.
    + apply lookup_insert_eq.
    + reflexivity.
    + rewrite length_app. cbn [length] in *. lia.
Qed.

(** One goroutine from its first step to its last, alone. *)
Lemma solo_run K work s n :
  tasks s !! n = Some Waiting -> exited s = None -> (sem s < K)%nat ->
  ending (work n) = None ->
  Z.of_nat (length (queue s) + length (sent (work n))) <= issuesCap ->
  run K work s (solo work n)
  = Some (State (<[n := Finished]> (tasks s)) (sem s) (queue s ++ sent (work n))
                (pred (wg s)) None).
Proof.
  intros Hn Hex Hlt Hend Hroom. apply Nat.ltb_lt in Hlt.
  unfold solo. cbn [run]. unfold step at 1. rewrite Hex, Hn, Hlt, Hend.
  rewrite run_app, (emit_all K work n None (sent (work n))); cbn [tasks sem queue wg exited];
    [| apply lookup_insert_eq | reflexivity | exact Hroom].
  cbn [run]. unfold step at 1. cbn [exited tasks]. rewrite lookup_insert_eq.
  unfold set_pc. cbn [tasks sem queue wg exited].
  unfold step at 1. cbn [exited tasks sem queue wg]. rewrite lookup_insert_eq.
  unfold step at 1. cbn [exited tasks sem queue wg]. rewrite lookup_insert_eq.
  rewrite !insert_insert_eq. reflexivity.
Qed.

Lemma in_turn_run K work (names : list string) :
  forall s,
    NoDup names ->
    (forall n, n ∈ names -> tasks s !! n = Some Waiting /\ ending (work n) = None) ->
    exited s = None -> (sem s < K)%nat ->
    Z.of_nat (length (queue s) + length (flat_map (fun n => sent (work n)) names))
      <= issuesCap ->
    exists s',
      run K work s (in_turn work names) = Some s'
      /\ exited s' = None
      /\ queue s' = (queue s ++ flat_map (fun n => sent (work n)) names)%list
      /\ (wg s' = wg s - length names)%nat.
Proof.
  induction names as [|n names IH]; intros s Hnd Hall Hex Hlt Hroom.
  - exists s. cbn. rewrite app_nil_r. repeat split; [exact Hex | lia].
  - apply NoDup_cons in Hnd as [Hnotin Hnd].
    destruct (Hall n ltac:(left)) as [Hn Hend].
    cbn [flat_map] in Hroom. rewrite length_app in Hroom.
    unfold in_turn. cbn [flat_map]. rewrite run_app.
    rewrite (solo_run K work s n Hn Hex Hlt Hend) by lia.
    fold (in_turn work names).
    destruct (IH (State (<[n := Finished]> (tasks s)) (sem s) (queue s ++ sent (work n))
                        (pred (wg s)) None)) as (s' & Hrun & Hex' & Hq & Hwg).
    + exact Hnd.
    + intros n' Hin. cbn [tasks].
      rewrite lookup_insert_ne by (intros ->; contradiction).
      apply Hall. right. exact Hin.
    + reflexivity.
    + exact Hlt.
    + cbn [queue]. rewrite length_app. lia.
    + exists s'. cbn [queue wg] in *. rewrite Hq, <- app_assoc.
      repeat split; [exact Hrun | exact Hex' | cbn [length]; lia].
Qed.

Lemma all_sent_goroutines fl sh :
  issues_of fl sh
  = flat_map (fun n => sent (work_of fl sh n)) (map_to_list (enabled fl)).*1.
Proof.
  unfold issues_of, all_sent, map_flat, goroutines. rewrite map_to_list_fmap.
  induction (map_to_list (enabled fl)) as [|[n d] l IH]; [reflexivity|].
  cbn. f_equal. exact IH.
Qed.

(** X6.  With a concurrency of at least 1 and at most the largest capacity
    [chanMax] that [make] accepts on the platform, descriptions that all
    have a colon, an [--exclude] that is empty or compiles, linters none of
    which ends in a fatal error and at most 100000 issues between them,
    [main] does return: letting the goroutines run one after the other
    brings it to print the report of all their issues. *)
Theorem main_can_finish chanMax fl sh :
  1 <= concurrencyFlag fl <= chanMax ->
  excludeFlag fl = "" \/ is_Some (Regexp.Compile (excludeFlag fl)) ->
  map_Forall (fun _ description => has_colon description = true) (enabled fl) ->
  (forall name description,
     enabled fl !! name = Some description -> ending (work_of fl sh name) = None) ->
  Z.of_nat (length (issues_of fl sh)) <= 100000 ->
  main chanMax fl sh (in_turn (work_of fl sh) (map_to_list (enabled fl)).*1)
  = Some (Printed (report (exclude_filter fl) (issues_of fl sh))).
Proof.
  intros HK Hexcl Hcolon Hend Hroom.
  set (names := (map_to_list (enabled fl)).*1).
  assert (Hnames : forall n, n ∈ names -> is_Some (enabled fl !! n)).
  { intros n Hin. apply list_elem_of_fmap in Hin as ([n' d] & -> & Hin).
    apply elem_of_map_to_list in Hin. cbn. eauto. }
  destruct (in_turn_run (Z.to_nat (concurrencyFlag fl)) (work_of fl sh) names
              (start (goroutines fl)))
    as (s & Hrun & Hex & Hq & Hwg).
  - apply NoDup_fst_map_to_list.
  - intros n Hin. destruct (Hnames n Hin) as [d Hd]. split; [|exact (Hend n d Hd)].
    cbn [tasks start]. unfold goroutines. rewrite lookup_fmap, Hd. reflexivity.
  - reflexivity.
  - cbn [sem start]. lia.
  - cbn [queue start length]. rewrite <- all_sent_goroutines.
    unfold issuesCap. cbn [Nat.add]. exact Hroom.
  - cbn [queue wg start app] in Hq, Hwg.
    unfold goroutines in Hwg. rewrite map_size_fmap in Hwg.
    replace (length names) with (size (enabled fl)) in Hwg
      by (unfold names; rewrite length_fmap, length_map_to_list; reflexivity).
    rewrite Nat.sub_diag in Hwg.
    rewrite <- all_sent_goroutines in Hq.
    unfold main.
    replace ((concurrencyFlag fl <? 0) || (chanMax <? concurrencyFlag fl)) with false
      by (symmetry; apply orb_false_intro; apply Z.ltb_ge; lia).
    assert (Hc : forallb (fun kv : string * string => has_colon kv.2)
                   (map_to_list (enabled fl)) = true).
    { apply forallb_forall. intros [name description] Hin.
      apply list_elem_of_In, elem_of_map_to_list in Hin. exact (Hcolon _ _ Hin). }
    rewrite Hc. cbn [negb]. fold (goroutines fl). fold names.
    rewrite Hrun, Hex, Hwg, Hq. unfold exclude_filter.
    destruct Hexcl as [-> | [re Hre]]; [reflexivity|].
    destruct (String.eqb (excludeFlag fl) ""); [reflexivity|].
    rewrite Hre. reflexivity.
Qed.

Lemma main_can_finish_witness :
  let fl := {| lintersFlag := defaultLinters;
               linterMessageOverrideFlag := defaultMessageOverride;
               linterSeverityFlag := defaultSeverity;
               pathArg := "."; fastFlag := true;
               disableLintersFlag := ["gotype"; "defercheck"];
               concurrencyFlag := 1; excludeFlag := "" |} in
  let sh : shell := fun command =>
    if String.eqb command "golint ." then ("a.go:2:1: y" ++ String nl "", None)
    else ("b.go:9: z" ++ String nl "", Some (ExitError 1)) in
  1 <= concurrencyFlag fl <= 2 ^ 31 - 1
  /\ Z.of_nat (length (issues_of fl sh)) <= 100000
  /\ main (2 ^ 31 - 1) fl sh (in_turn (work_of fl sh) (map_to_list (enabled fl)).*1)
     = Some (Printed (report (exclude_filter fl) (issues_of fl sh))).
Proof.
  intros fl sh.
  assert (Hcap : 1 <= concurrencyFlag fl <= 2 ^ 31 - 1) by (cbn; lia).
  assert (Hroom : Z.of_nat (length (issues_of fl sh)) <= 100000)
    by (vm_compute; discriminate).
  split; [exact Hcap|].
  split; [exact Hroom|].
  apply (main_can_finish (2 ^ 31 - 1) fl sh).
  - exact Hcap.
  - left. reflexivity.
  - intros name description Hname. apply enabled_lookup in Hname.
    pose proof (defaultLinters_well_formed name description Hname) as Hwf.
    destruct (well_formed_inv _ Hwf) as (c & p & re & Hs & _).
    unfold has_colon. rewrite Hs. reflexivity.
  - intros name description Hname.
    assert (Hcases : name = "golint" \/ name = "vet").
    { assert (Hin : (name, description) ∈ map_to_list (enabled fl))
        by (apply elem_of_map_to_list; exact Hname).
      vm_compute in Hin. apply list_elem_of_In in Hin.
      destruct Hin as [[= <- _]|[[= <- _]|[]]]; auto. }
    destruct Hcases as [-> | ->]; vm_compute; reflexivity.
  - exact Hroom.
Defined.

(** ** Extraction line by line *)

Lemma split_lines_cons (s : string) : exists l ls, split_lines s = l :: ls.
Proof.
  induction s as [|c s (l & ls & IH)]; cbn [split_lines]; [eauto|].
  rewrite IH. destruct (Ascii.eqb c nl); eauto.
Qed.

Lemma split_lines_app (a b : string) :
  split_lines (a ++ String nl b) = (split_lines a ++ split_lines b)%list.
Proof.
  induction a as [|c a IH]; cbn [String.append split_lines].
  - rewrite Ascii.eqb_refl. reflexivity.
  - rewrite IH. destruct (Ascii.eqb c nl); [reflexivity|].
    destruct (split_lines_cons a) as (l & ls & ->). reflexivity.
Qed.

Lemma extract_lines_app fl re name (l1 l2 : list string) :
  extract_lines fl re name (l1 ++ l2)
  = match ending (extract_lines fl re name l1) with
    | Some _ => extract_lines fl re name l1
    | None =>
        Trace (sent (extract_lines fl re name l1) ++ sent (extract_lines fl re name l2))
              (ending (extract_lines fl re name l2))
    end.
Proof.
  induction l1 as [|l l1 IH]; cbn [app extract_lines].
  - cbn. destruct (extract_lines fl re name l2); reflexivity.
  - destruct (extract_line fl re name l) as [f|[issue|]]; cbn [sent ending].
    + reflexivity.
    + rewrite IH. destruct (extract_lines fl re name l1) as [s1 [f1|]]; reflexivity.
    + exact IH.
Qed.

(** X7.  Extraction works through the output line by line, in order: for
    two pieces of output joined by a newline, the issues of the first come
    before the issues of the second; and once a line of the first piece has
    ended the process, the second piece is not looked at. *)
Theorem extract_in_line_order fl re name (a b : string) :
  extract fl re name (a ++ String nl b)
  = match ending (extract fl re name a) with
    | Some _ => extract fl re name a
    | None =>
        Trace (sent (extract fl re name a) ++ sent (extract fl re name b))
              (ending (extract fl re name b))
    end.
Proof. unfold extract. rewrite split_lines_app. apply extract_lines_app. Qed.

(** ** The numbers of an issue *)

Lemma parse_uint_loop_bound (s : string) (n v : Z) :
  0 <= n <= 2 ^ 32 - 1 -> parse_uint_loop 32 s n = Parsed v -> 0 <= v <= 2 ^ 32 - 1.
Proof.
  revert n. induction s as [|c s IH]; intros n Hn; cbn [parse_uint_loop].
  - intros [= <-]. exact Hn.
  - destruct (negb (is_digit c)); [discriminate|].
    destruct (maxUint64 / 10 + 1 <=? n); [discriminate|].
    destruct (Z.ltb_spec ((n * 10 + (byte_val c - 48)) mod 2 ^ 64) (n * 10));
      cbn [orb]; [discriminate|].
    destruct (Z.ltb_spec (2 ^ 32 - 1) ((n * 10 + (byte_val c - 48)) mod 2 ^ 64));
      [discriminate|].
    apply IH. split; [|assumption].
    apply Z.mod_pos_bound. lia.
Qed.

Lemma ParseInt_bound (s : string) (v : Z) :
  ParseInt s 32 = Parsed v -> - 2 ^ 31 <= v <= 2 ^ 31 - 1.
Proof.
  unfold ParseInt. destruct s as [|c s]; [discriminate|].
  assert (Hu : forall d u, ParseUint d 32 = Parsed u -> 0 <= u <= 2 ^ 32 - 1).
  { intros d u. unfold ParseUint. destruct d; [discriminate|].
    apply parse_uint_loop_bound. lia. }
  change (2 ^ (32 - 1)) with (2 ^ 31).
  destruct (Ascii.eqb c "+"); [|destruct (Ascii.eqb c "-")];
    match goal with
    | |- context [ParseUint ?d 32] =>
        destruct (ParseUint d 32) as [u|e] eqn:Hp; [|discriminate];
        apply Hu in Hp
    end; cbn [negb andb].
  - destruct (Z.leb_spec (2 ^ 31) u); [discriminate|]. intros [= <-]. lia.
  - destruct (Z.ltb_spec (2 ^ 31) u); [discriminate|]. intros [= <-]. lia.
  - destruct (Z.leb_spec (2 ^ 31) u); [discriminate|]. intros [= <-]. lia.
Qed.

Lemma set_field_fits issue field part issue' :
  fits_int32 issue -> set_field issue field part = inr issue' -> fits_int32 issue'.
Proof.
  unfold set_field, fits_int32. intros [Hl Hc].
  destruct (String.eqb field "path"); [intros [= <-]; cbn; auto|].
  destruct (String.eqb field "line").
  { destruct (ParseInt part 32) as [n|e] eqn:Hp; [|discriminate].
    intros [= <-]. cbn. split; [exact (ParseInt_bound _ _ Hp) | exact Hc]. }
  destruct (String.eqb field "col").
  { destruct (ParseInt part 32) as [n|e] eqn:Hp; [|discriminate].
    intros [= <-]. cbn. split; [exact Hl | exact (ParseInt_bound _ _ Hp)]. }
  destruct (String.eqb field "message"); [intros [= <-]; cbn; auto|].
  destruct (String.eqb field ""); [intros [= <-]; auto | discriminate].
Qed.

Lemma fill_fields_fits names i groups issue issue' :
  fits_int32 issue -> fill_fields names i groups issue = inr issue' -> fits_int32 issue'.
Proof.
  revert i issue. induction names as [|name names IH]; intros i issue Hfit; cbn [fill_fields].
  - intros [= <-]. exact Hfit.
  - destruct (set_field issue name _) as [f|issue1] eqn:E; [discriminate|].
    apply IH. eapply set_field_fits; eassumption.
Qed.

Lemma extract_lines_fits fl re name lines issue :
  In issue (sent (extract_lines fl re name lines)) -> fits_int32 issue.
Proof.
  induction lines as [|l lines IH]; cbn [extract_lines]; [intros []|].
  destruct (extract_line fl re name l) as [f|[found|]] eqn:E; cbn [sent].
  - intros [].
  - intros [<-|Hin]; [|auto].
    unfold extract_line in E.
    destruct (Regexp.FindAllSubmatch re l) as [|first rest]; [discriminate|].
    destruct (fill_fields _ _ _ _) as [f|filled] eqn:Hfill; [discriminate|].
    injection E as <-.
    assert (Hempty : fits_int32 emptyIssue) by (unfold fits_int32; cbn; lia).
    exact (fill_fields_fits _ _ _ _ _ Hempty Hfill).
  - exact IH.
Qed.

(** X8.  The line and the column of every issue [executeLinter] sends fit
    a signed 32-bit integer, whatever the pattern and the output. *)
Theorem issue_numbers_fit_int32 fl sh name command pattern paths issue :
  In issue (sent (executeLinter fl sh name command pattern paths)) ->
  (- 2 ^ 31 <= line issue <= 2 ^ 31 - 1) /\ (- 2 ^ 31 <= col issue <= 2 ^ 31 - 1).
Proof.
  unfold executeLinter.
  destruct (Regexp.Compile _) as [re|]; [|intros []].
  destruct (sh _) as [out [[status|reason]|]]; cbn [sent]; try (intros []);
    apply extract_lines_fits.
Qed.

Lemma issue_numbers_fit_int32_witness :
  let sh : shell := fun _ => ("a.go:2147483647:0: y", None) in
  let issue := {| severity := "error"; path := "a.go"; line := 2147483647; col := 0;
                  message := "y" |} in
  In issue (sent (executeLinter defaultFlags sh "gotype" "gotype {path}"
                                "PATH:LINE:COL:MESSAGE" "."))
  /\ (- 2 ^ 31 <= line issue <= 2 ^ 31 - 1) /\ (- 2 ^ 31 <= col issue <= 2 ^ 31 - 1).
Proof.
  intros sh issue.
  assert (Hin : In issue (sent (executeLinter defaultFlags sh "gotype" "gotype {path}"
                                              "PATH:LINE:COL:MESSAGE" ".")))
    by (vm_compute; left; reflexivity).
  split; [exact Hin|].
  exact (issue_numbers_fit_int32 defaultFlags sh "gotype" "gotype {path}"
           "PATH:LINE:COL:MESSAGE" "." issue Hin).
Defined.

(** ** The ways extraction ends the process *)

(** X9.  [executeLinter] ends the process in three ways only: its pattern
    does not compile ("invalid pattern for '<command>'", with the command
    as configured, before the path is filled in); a [line] or [col] group
    matched something [ParseInt] rejects; or the pattern has a named group
    outside [path], [line], [col] and [message]. *)
Theorem executeLinter_fatal_kinds fl sh name command pattern paths f :
  ending (executeLinter fl sh name command pattern paths) = Some f ->
  (Regexp.Compile (default pattern (predefinedPatterns !! pattern)) = None
   /\ invalid_pattern command f)
  \/ exists re,
       Regexp.Compile (default pattern (predefinedPatterns !! pattern)) = Some re
       /\ (invalid_integer f \/ invalid_subgroup re f).
Proof.
  unfold executeLinter.
  destruct (Regexp.Compile _) as [re|].
  - intros Hend. right. exists re. split; [reflexivity|].
    destruct (sh _) as [out [[status|reason]|]]; cbn [ending] in Hend;
      try discriminate Hend; eapply extract_lines_fatal_kinds; exact Hend.
  - cbn [ending]. intros [= <-]. left. split; reflexivity.
Qed.

Lemma executeLinter_fatal_kinds_witness :
  let sh : shell := fun _ => ("a.go:7: bad", None) in
  let f := Fatal "invalid subgroup file" None in
  ending (executeLinter defaultFlags sh "mine" "mine {path}"
                        "(?P<file>[^:]+):(?P<line>\d+): (?P<message>.*)" ".") = Some f
  /\ ((Regexp.Compile (default "(?P<file>[^:]+):(?P<line>\d+): (?P<message>.*)"
         (predefinedPatterns !! "(?P<file>[^:]+):(?P<line>\d+): (?P<message>.*)")) = None
       /\ invalid_pattern "mine {path}" f)
      \/ exists re,
           Regexp.Compile (default "(?P<file>[^:]+):(?P<line>\d+): (?P<message>.*)"
             (predefinedPatterns !! "(?P<file>[^:]+):(?P<line>\d+): (?P<message>.*)"))
           = Some re
           /\ (invalid_integer f \/ invalid_subgroup re f)).
Proof.
  intros sh f.
  assert (Hend : ending (executeLinter defaultFlags sh "mine" "mine {path}"
                   "(?P<file>[^:]+):(?P<line>\d+): (?P<message>.*)" ".") = Some f)
    by (vm_compute; reflexivity).
  split; [exact Hend|].
  exact (executeLinter_fatal_kinds defaultFlags sh "mine" "mine {path}"
           "(?P<file>[^:]+):(?P<line>\d+): (?P<message>.*)" "." f Hend).
Defined.

Lemma fill_fields_unknown names i groups issue field :
  In field names -> known_name field = false ->
  exists f, fill_fields names i groups issue = inl f.
Proof.
  revert i issue. induction names as [|name names IH]; intros i issue; [intros []|].
  intros [->|Hin] Hk; cbn [fill_fields].
  - rewrite set_field_unknown by exact Hk. eauto.
  - destruct (set_field issue name _); eauto.
Qed.

Lemma extract_lines_unknown fl re name lines field :
  In field (Regexp.SubexpNames re) -> known_name field = false ->
  sent (extract_lines fl re name lines) = []
  /\ (ending (extract_lines fl re name lines) = None <->
      List.filter (fun l => negb (Nat.eqb (length (Regexp.FindAllSubmatch re l)) 0)) lines
      = []).
Proof.
  intros Hin Hk. induction lines as [|l lines [IHs IHe]]; cbn [extract_lines List.filter].
  - split; [reflexivity | split; reflexivity].
  - unfold extract_line.
    destruct (Regexp.FindAllSubmatch re l) as [|first rest]; cbn [length Nat.eqb negb].
    + split; [exact IHs | exact IHe].
    + destruct (fill_fields_unknown (Regexp.SubexpNames re) 0 first emptyIssue field Hin Hk)
        as [f ->].
      cbn [sent ending]. split; [reflexivity | split; discriminate].
Qed.

(** X10.  A pattern with a named group outside [path], [line], [col] and
    [message] never yields an issue: the first line it matches ends the
    process, and only output without any matching line gets through. *)
Theorem unknown_group_yields_nothing fl re name out field :
  In field (Regexp.SubexpNames re) -> known_name field = false ->
  sent (extract fl re name out) = []
  /\ (ending (extract fl re name out) = None <-> matching_lines re out = []).
Proof. intros Hin Hk. apply (extract_lines_unknown fl re name _ field Hin Hk). Qed.

Lemma unknown_group_yields_nothing_witness :
  let re := default Regexp.REmpty
              (Regexp.Compile "(?P<file>[^:]+):(?P<line>\d+): (?P<message>.*)") in
  let out := "banner" ++ String nl "a.go:7: bad" in
  In "file" (Regexp.SubexpNames re) /\ known_name "file" = false
  /\ sent (extract defaultFlags re "mine" out) = []
  /\ (ending (extract defaultFlags re "mine" out) = None <-> matching_lines re out = []).
Proof.
  intros re out.
  assert (Hin : In "file" (Regexp.SubexpNames re)) by (vm_compute; auto).
  split; [exact Hin|]. split; [reflexivity|].
  exact (unknown_group_yields_nothing defaultFlags re "mine" out "file" Hin eq_refl).
Defined.

(** ** Placeholders *)

Lemma has_prefix_app (old post : string) : has_prefix old (old ++ post) = true.
Proof.
  induction old as [|c old IH]; cbn; [reflexivity|].
  rewrite Ascii.eqb_refl. exact IH.
Qed.

Lemma replace_from_skip (a s old new : string) :
  replace_from (slen a) (a ++ s) old new = replace_from 0 s old new.
Proof. induction a as [|c a IH]; cbn; [destruct s; reflexivity | exact IH]. Qed.

Lemma replace_from_clean (c0 : ascii) (old' new s : string) :
  all_bytes (fun c => negb (Ascii.eqb c c0)) s = true ->
  replace_from 0 s (String c0 old') new = s.
Proof.
  induction s as [|c s IH]; cbn [all_bytes replace_from has_prefix]; [reflexivity|].
  intros H. apply andb_true_iff in H as [Hc Hs]. apply negb_true_iff in Hc.
  rewrite Ascii.eqb_sym, Hc, (IH Hs). reflexivity.
Qed.

(** Where the placeholder first stands, the new text goes in as it is, and
    the scan goes on behind it. *)
Lemma replace_from_at (c0 : ascii) (old' new pre post : string) :
  all_bytes (fun c => negb (Ascii.eqb c c0)) pre = true ->
  replace_from 0 (pre ++ String c0 (old' ++ post)) (String c0 old') new
  = pre ++ new ++ replace_from 0 post (String c0 old') new.
Proof.
  induction pre as [|c pre IH]; cbn [all_bytes String.append].
  - intros _. cbn [replace_from].
    change (has_prefix (String c0 old') (String c0 (old' ++ post)))
      with (has_prefix (String c0 old') (String c0 old' ++ post)).
    rewrite has_prefix_app. cbn [slen String.length Nat.sub].
    rewrite Nat.sub_0_r. fold (slen old'). rewrite replace_from_skip. reflexivity.
  - intros H. apply andb_true_iff in H as [Hc Hs]. apply negb_true_iff in Hc.
    cbn [replace_from has_prefix]. rewrite (Ascii.eqb_sym c0 c), Hc, (IH Hs). reflexivity.
Qed.

Lemma Replace_placeholder (c0 : ascii) (old' new pre post : string) :
  all_bytes (fun c => negb (Ascii.eqb c c0)) pre = true ->
  all_bytes (fun c => negb (Ascii.eqb c c0)) post = true ->
  Replace (pre ++ String c0 old' ++ post) (String c0 old') new = pre ++ new ++ post.
Proof.
  intros Hpre Hpost. unfold Replace.
  change (pre ++ String c0 old' ++ post) with (pre ++ String c0 (old' ++ post)).
  rewrite (replace_from_at c0 old' new pre post Hpre).
  rewrite (replace_from_clean c0 old' new post Hpost). reflexivity.
Qed.

(** X11.  A message override with one placeholder puts the extracted
    message where the placeholder stands, as it is, and leaves path, line
    and column alone; the message is not searched for placeholders in its
    turn. *)
Theorem message_override_wraps fl name issue (pre post : string) :
  linterMessageOverrideFlag fl !! name = Some (pre ++ "{message}" ++ post) ->
  all_bytes not_brace pre = true -> all_bytes not_brace post = true ->
  message (finish_issue fl name issue) = pre ++ message issue ++ post
  /\ path (finish_issue fl name issue) = path issue
  /\ line (finish_issue fl name issue) = line issue
  /\ col (finish_issue fl name issue) = col issue.
Proof.
  intros Hm Hpre Hpost. unfold finish_issue. cbn [message path line col]. rewrite Hm.
  repeat split.
  exact (Replace_placeholder "{" "message}" (message issue) pre post Hpre Hpost).
Qed.

Lemma message_override_wraps_witness :
  let issue := {| severity := ""; path := "a.go"; line := 3; col := 9;
                  message := "a {message} b" |} in
  linterMessageOverrideFlag defaultFlags !! "errcheck"
  = Some ("error return value not checked (" ++ "{message}" ++ ")")
  /\ message (finish_issue defaultFlags "errcheck" issue)
     = "error return value not checked (" ++ "a {message} b" ++ ")".
Proof.
  intros issue.
  assert (Hm : linterMessageOverrideFlag defaultFlags !! "errcheck"
               = Some ("error return value not checked (" ++ "{message}" ++ ")"))
    by (vm_compute; reflexivity).
  split; [exact Hm|].
  exact (proj1 (message_override_wraps defaultFlags "errcheck" issue
                  "error return value not checked (" ")" Hm eq_refl eq_refl)).
Defined.

(** X12.  The command [executeLinter] runs is its template with the path
    in the place of [{path}]: the shell is asked about that command line
    and no other. *)
Theorem command_is_template_with_path fl (sh1 sh2 : shell) name pattern paths
    (pre post : string) :
  all_bytes not_brace pre = true -> all_bytes not_brace post = true ->
  sh1 (pre ++ paths ++ post) = sh2 (pre ++ paths ++ post) ->
  executeLinter fl sh1 name (pre ++ "{path}" ++ post) pattern paths
  = executeLinter fl sh2 name (pre ++ "{path}" ++ post) pattern paths.
Proof.
  intros Hpre Hpost Hsh. unfold executeLinter.
  destruct (Regexp.Compile _) as [re|]; [|reflexivity].
  assert (Hcmd : Replace (pre ++ "{path}" ++ post) "{path}" paths = pre ++ paths ++ post).
  { exact (Replace_placeholder "{" "path}" paths pre post Hpre Hpost). }
  rewrite Hcmd, Hsh. reflexivity.
Qed.

Lemma command_is_template_with_path_witness :
  let sh1 : shell := fun command =>
    if String.eqb command "golint ./src" then ("a.go:5:3: bad", None)
    else ("", Some (StartError "not run")) in
  let sh2 : shell := fun _ => ("a.go:5:3: bad", None) in
  executeLinter defaultFlags sh1 "golint" ("golint " ++ "{path}" ++ "")
                "PATH:LINE:COL:MESSAGE" "./src"
  = executeLinter defaultFlags sh2 "golint" ("golint " ++ "{path}" ++ "")
                  "PATH:LINE:COL:MESSAGE" "./src".
Proof.
  intros sh1 sh2.
  exact (command_is_template_with_path defaultFlags sh1 sh2 "golint"
           "PATH:LINE:COL:MESSAGE" "./src" "golint " "" eq_refl eq_refl eq_refl).
Defined.

(** ** Lines without a colon *)

Lemma class_mem_lit (d c : ascii) :
  Regexp.class_mem (Regexp.CharClass false [(byte_val d, byte_val d)]) c = Ascii.eqb c d.
Proof.
  pose proof (class_mem_not d c) as H. unfold Regexp.class_mem in *. cbn [Regexp.cc_neg] in *.
  cbn [Regexp.cc_ranges] in *.
  destruct (Regexp.in_ranges [(byte_val d, byte_val d)] c), (Ascii.eqb c d);
    cbn in *; congruence.
Qed.

Section NoMatch.

Import Regexp.

Variable total : nat.
Variable f : ascii -> bool.
Variable k : cont.
Hypothesis k_fails : forall s caps, all_bytes f s = true -> k s caps = None.

(** A loop over a class hands its continuation only ends of the text it
    was given: if the continuation fails on all of them, so does the
    loop. *)
Lemma star_loop_class_none (cc : charclass) (g : bool) (n : nat) :
  forall s caps, all_bytes f s = true ->
                 star_loop (bt total (RClass cc)) g k n s caps = None.
Proof.
  induction n as [|n IH]; intros s caps Hs; cbn [star_loop]; [exact (k_fails s caps Hs)|].
  assert (Hagain : bt total (RClass cc) s caps
                     (fun s' caps' =>
                        if (slen s' <? slen s)%nat
                        then star_loop (bt total (RClass cc)) g k n s' caps' else None)
                   = None).
  { destruct s as [|c s]; [apply bt_class_nil|].
    rewrite bt_class_cons. destruct (class_mem cc c); [|reflexivity].
    cbn in Hs. apply andb_true_iff in Hs as [_ Hs].
    destruct (slen s <? slen (String c s))%nat; [exact (IH s caps Hs) | reflexivity]. }
  unfold or_else. rewrite Hagain, (k_fails s caps Hs). destruct g; reflexivity.
Qed.

Lemma bt_plus_class_none (cc : charclass) (g : bool) s caps :
  all_bytes f s = true -> bt total (RPlus g (RClass cc)) s caps k = None.
Proof.
  intros Hs.
  change (bt total (RPlus g (RClass cc)) s caps k)
    with (bt total (RClass cc) s caps
            (fun s' caps' => star_loop (bt total (RClass cc)) g k (slen s') s' caps')).
  destruct s as [|c s]; [apply bt_class_nil|].
  rewrite bt_class_cons. destruct (class_mem cc c); [|reflexivity].
  cbn in Hs. apply andb_true_iff in Hs as [_ Hs].
  apply star_loop_class_none. exact Hs.
Qed.

End NoMatch.

(** A pattern that wants a colon right after its first group finds
    nothing in a text without colons. *)
Lemma colon_pattern_no_match total i n g cc rest s caps k :
  all_bytes not_colon s = true ->
  Regexp.bt total
    (Regexp.RCat (Regexp.RCapture i n (Regexp.RPlus g (Regexp.RClass cc)))
       (Regexp.RCat (Regexp.RClass (Regexp.CharClass false [(58, 58)])) rest))
    s caps k = None.
Proof.
  intros Hs. rewrite bt_cat, bt_capture.
  apply (bt_plus_class_none total not_colon); [|exact Hs].
  intros s' caps' Hs'. rewrite bt_cat.
  destruct s' as [|c s']; [apply bt_class_nil|].
  rewrite bt_class_cons. change 58 with (byte_val ":"). rewrite class_mem_lit.
  cbn in Hs'. apply andb_true_iff in Hs' as [Hc _].
  unfold not_colon in Hc. apply negb_true_iff in Hc. rewrite Hc. reflexivity.
Qed.

Lemma search_none total re (f : ascii -> bool) :
  (forall pos s, all_bytes f s = true -> Regexp.match_here total re pos s = None) ->
  forall s pos, all_bytes f s = true -> Regexp.search total re pos s = None.
Proof.
  intros Hhere. induction s as [|c s IH]; intros pos Hs; cbn [Regexp.search];
    rewrite (Hhere pos _ Hs); [reflexivity|].
  cbn in Hs. apply andb_true_iff in Hs as [_ Hs]. exact (IH (S pos) Hs).
Qed.

Lemma split_lines_all_bytes (f : ascii -> bool) (s : string) :
  all_bytes f s = true -> Forall (fun l => all_bytes f l = true) (split_lines s).
Proof.
  induction s as [|c s IH]; cbn [split_lines all_bytes].
  - intros _. constructor; [reflexivity | constructor].
  - intros H. apply andb_true_iff in H as [Hc Hs]. specialize (IH Hs).
    destruct (Ascii.eqb c nl).
    + constructor; [reflexivity | exact IH].
    + destruct (split_lines s) as [|l ls]; [constructor; [cbn; rewrite Hc|]; auto|].
      inversion IH as [|? ? Hl Hls]; subst.
      constructor; [cbn; rewrite Hc; exact Hl | exact Hls].
Qed.

Lemma extract_lines_no_match fl re name (lines : list string) :
  Forall (fun l => Regexp.search (slen l) re 0 l = None) lines ->
  extract_lines fl re name lines = Trace [] None.
Proof.
  induction 1 as [|l lines Hl _ IH]; cbn [extract_lines]; [reflexivity|].
  rewrite extract_line_leftmost, Hl. exact IH.
Qed.

(** X13.  Under the two predefined patterns, output without a single
    colon (banners, blank lines, summaries) yields no issue and no error. *)
Theorem colon_free_output_yields_nothing fl name out :
  all_bytes not_colon out = true ->
  extract fl plcm name out = Trace [] None /\ extract fl plm name out = Trace [] None.
Proof.
  intros Hout. pose proof (split_lines_all_bytes not_colon out Hout) as Hlines.
  split; unfold extract; apply extract_lines_no_match;
    (eapply Forall_impl; [exact Hlines|]); intros l Hl;
    apply (search_none _ _ not_colon); try exact Hl;
    intros pos s Hs; unfold Regexp.match_here;
    [unfold plcm | unfold plm]; rewrite colon_pattern_no_match by exact Hs; reflexivity.
Qed.

Lemma colon_free_output_yields_nothing_witness :
  let out := "checking" ++ String nl ("" ++ String nl "2 files ok") in
  all_bytes not_colon out = true
  /\ extract defaultFlags plcm "vet" out = Trace [] None
  /\ extract defaultFlags plm "vet" out = Trace [] None.
Proof.
  intros out. split; [reflexivity|].
  exact (colon_free_output_yields_nothing defaultFlags "vet" out eq_refl).
Defined.

(** ** Linter descriptions *)

Lemma take_str_app_l (a b : string) : take_str (slen a) (a ++ b) = a.
Proof. induction a as [|c a IH]; cbn; [destruct b; reflexivity | f_equal; exact IH]. Qed.

Lemma drop_str_app_l (a b : string) : drop_str (slen a) (a ++ b) = b.
Proof. induction a as [|c a IH]; cbn; [destruct b; reflexivity | exact IH]. Qed.

Lemma take_str_full (s : string) : take_str (slen s) s = s.
Proof. induction s as [|c s IH]; cbn; [reflexivity | f_equal; exact IH]. Qed.

(** What [SplitN(s, ":", 2)] finds is where [Index(s, ":")] points. *)
Lemma split_colon_Index (s : string) (i : Z) :
  match split_colon s with
  | (a, Some b) => s = a ++ String ":" b /\ Index_from s ":" i = i + Z.of_nat (slen a)
  | (a, None) => a = s /\ Index_from s ":" i = -1
  end.
Proof.
  revert i. induction s as [|c s IH]; intros i; cbn [split_colon Index_from has_prefix].
  - split; reflexivity.
  - rewrite (Ascii.eqb_sym ":" c). destruct (Ascii.eqb_spec c ":") as [->|Hc].
    + split; [reflexivity|]. cbn. lia.
    + specialize (IH (i + 1)). destruct (split_colon s) as [a [b|]].
      * destruct IH as [-> ->]. split; [reflexivity|].
        unfold slen. cbn [String.length]. lia.
      * destruct IH as [-> ->]. split; reflexivity.
Qed.

(** With a colon, the two methods cut the description where [SplitN]
    does; without one, [Index] gives -1 and both slice expressions panic. *)
Lemma Linter_slices (l : string) :
  match split_colon l with
  | (command, Some pattern) =>
      Linter.Command l = Some command /\ Linter.Pattern l = Some (String ":" pattern)
  | (_, None) => Linter.Command l = None /\ Linter.Pattern l = None
  end.
Proof.
  pose proof (split_colon_Index l 0) as H.
  unfold Linter.Command, Linter.Pattern, Index, slice.
  destruct (split_colon l) as [a [b|]].
  - destruct H as [-> ->]. rewrite slen_app, !Z.add_0_l.
    change (slen (String ":" b)) with (S (slen b)).
    replace ((0 <=? 0) && (0 <=? Z.of_nat (slen a))
             && (Z.of_nat (slen a) <=? Z.of_nat (slen a + S (slen b))))
      with true by (symmetry; rewrite !andb_true_iff, !Z.leb_le; lia).
    replace ((0 <=? Z.of_nat (slen a))
             && (Z.of_nat (slen a) <=? Z.of_nat (slen a + S (slen b)))
             && (Z.of_nat (slen a + S (slen b)) <=? Z.of_nat (slen a + S (slen b))))
      with true by (symmetry; rewrite !andb_true_iff, !Z.leb_le; lia).
    rewrite Z.sub_0_r, !Nat2Z.id.
    change (drop_str (Z.to_nat 0) (a ++ String ":" b)) with (a ++ String ":" b).
    rewrite take_str_app_l, drop_str_app_l.
    replace (Z.to_nat (Z.of_nat (slen a + S (slen b)) - Z.of_nat (slen a)))
      with (slen (String ":" b)) by (change (slen (String ":" b)) with (S (slen b)); lia).
    rewrite take_str_full. auto.
  - destruct H as [_ ->]. split; reflexivity.
Qed.

(** X14.  On a description with a colon, [Command] is the text before the
    first colon, the command [main] runs, and [Pattern] the rest with the
    colon still in front, one byte more than the pattern [main] hands to
    [executeLinter]; put together they give the description back.  On a
    description without a colon both panic. *)
Theorem Linter_methods_split (l : string) :
  match split_colon l with
  | (command, Some pattern) =>
      Linter.Command l = Some command
      /\ Linter.Pattern l = Some (String ":" pattern)
      /\ command ++ String ":" pattern = l
  | (_, None) => Linter.Command l = None /\ Linter.Pattern l = None
  end.
Proof.
  pose proof (Linter_slices l) as H. pose proof (split_colon_Index l 0) as Hi.
  destruct (split_colon l) as [a [b|]]; [|exact H].
  destruct H as [Hc Hp]. destruct Hi as [Hl _].
  split; [exact Hc|]. split; [exact Hp | symmetry; exact Hl].
Qed.

(** X15.  [formatLinters] panics exactly when some description has no
    colon; otherwise its text has, for every entry, the name, the command
    and the pattern with its colon in front, each entry on a line of its
    own. *)
Theorem formatLinters_text (entries : list (string * string)) :
  formatLinters entries =
  if forallb (fun kv => has_colon kv.2) entries
  then Some (concat_lines entries)
  else None.
Proof.
  induction entries as [|[name description] entries IH];
    cbn [formatLinters forallb concat_lines snd]; [reflexivity|].
  pose proof (Linter_slices description) as H.
  change (has_colon description)
    with (match split_colon description with (_, Some _) => true | _ => false end).
  destruct (split_colon description) as [c [p|]].
  - destruct H as (-> & ->). rewrite IH. cbn [andb].
    destruct (forallb _ entries); [|reflexivity].
    f_equal. cbn [Sprintf Ascii.eqb Bool.eqb fmt_verb String.append default id].
    repeat (rewrite sapp_assoc; cbn [String.append]). reflexivity.
  - destruct H as [-> _]. reflexivity.
Qed.

(** ** The comparison of issues *)

Lemma str_lt_irrefl (a : string) : str_lt a a = false.
Proof.
  induction a as [|c a IH]; cbn [str_lt]; [reflexivity|].
  rewrite Z.ltb_irrefl. exact IH.
Qed.

Lemma str_lt_asym (a b : string) : str_lt a b = true -> str_lt b a = false.
Proof.
  revert b. induction a as [|x a IH]; intros [|y b]; cbn [str_lt]; try congruence.
  destruct (Z.ltb_spec (byte_val x) (byte_val y)), (Z.ltb_spec (byte_val y) (byte_val x));
    try congruence; try lia. apply IH.
Qed.

Lemma str_lt_total (a b : string) : str_lt a b = false -> str_lt b a = false -> a = b.
Proof.
  revert b. induction a as [|x a IH]; intros [|y b]; cbn [str_lt]; try congruence.
  destruct (Z.ltb_spec (byte_val x) (byte_val y)), (Z.ltb_spec (byte_val y) (byte_val x));
    try congruence.
  intros Hab Hba. f_equal; [apply byte_val_inj; lia | exact (IH b Hab Hba)].
Qed.

(** X16.  [Less] leaves two issues unordered, in both directions, exactly
    when they agree on path, line and column: it is irreflexive, and it
    orders any two issues that differ in one of the three. *)
Theorem less_unordered_iff_same_place (a b : Issue) :
  (Issues.less a b = false /\ Issues.less b a = false)
  <-> (path a = path b /\ line a = line b /\ col a = col b).
Proof.
  unfold Issues.less. split.
  - intros [Hab Hba].
    apply orb_false_iff in Hab as [Hab Hc1]. apply orb_false_iff in Hab as [Hp1 Hl1].
    apply orb_false_iff in Hba as [Hba Hc2]. apply orb_false_iff in Hba as [Hp2 Hl2].
    apply Z.ltb_ge in Hc1, Hc2, Hl1, Hl2.
    split; [exact (str_lt_total _ _ Hp1 Hp2) | lia].
  - intros (-> & -> & ->). rewrite str_lt_irrefl, !Z.ltb_irrefl. auto.
Qed.

(** X17.  Where the order by path, then line, then column puts [a] before
    [b], [Less] does too; but it puts [b] before [a] as well as soon as
    [b] has the smaller line or the smaller column. *)
Theorem less_holds_against_the_order (a b : Issue) :
  lex_less a b = true ->
  Issues.less a b = true
  /\ (Issues.less b a = true <-> line b < line a \/ col b < col a).
Proof.
  unfold lex_less, Issues.less. intros H.
  assert (Hba : str_lt (path b) (path a) = false).
  { apply orb_true_iff in H as [H|H]; [exact (str_lt_asym _ _ H)|].
    apply andb_true_iff in H as [H _]. apply String.eqb_eq in H. rewrite H.
    apply str_lt_irrefl. }
  split.
  - apply orb_true_iff in H as [->|H]; [reflexivity|].
    apply andb_true_iff in H as [_ H]. apply orb_true_iff in H as [->|H].
    + rewrite orb_true_r. reflexivity.
    + apply andb_true_iff in H as [_ ->]. apply orb_true_r.
  - rewrite Hba. cbn [orb]. rewrite orb_true_iff, !Z.ltb_lt. reflexivity.
Qed.

Lemma less_holds_against_the_order_witness :
  let a := {| severity := "error"; path := "a.go"; line := 9; col := 1; message := "" |} in
  let b := {| severity := "error"; path := "b.go"; line := 2; col := 1; message := "" |} in
  lex_less a b = true
  /\ Issues.less a b = true
  /\ (Issues.less b a = true <-> line b < line a \/ col b < col a).
Proof.
  intros a b. split; [reflexivity|].
  exact (less_holds_against_the_order a b eq_refl).
Defined.

(** X18.  [Swap] on two indices in range exchanges the two entries and
    nothing else: the result is a permutation of the slice, and swapping
    again gives the slice back.  An index out of range panics. *)
Theorem Swap_exchanges (m m' : list Issue) (i j : nat) :
  Issues.Swap m i j = Some m' ->
  m' ≡ₚ m
  /\ m' !! i = m !! j /\ m' !! j = m !! i
  /\ (forall k, k <> i -> k <> j -> m' !! k = m !! k)
  /\ Issues.Swap m' i j = Some m.
Proof.
  unfold Issues.Swap.
  destruct (m !! i) as [a|] eqn:Hi; [|discriminate].
  destruct (m !! j) as [b|] eqn:Hj; [|discriminate].
  intros [= <-].
  pose proof (lookup_lt_Some _ _ _ Hi) as Hli.
  pose proof (lookup_lt_Some _ _ _ Hj) as Hlj.
  assert (H1 : <[j := a]> (<[i := b]> m) !! i = Some b).
  { destruct (decide (i = j)) as [->|Hne].
    - rewrite list_lookup_insert_eq by (rewrite length_insert; exact Hlj). congruence.
    - rewrite list_lookup_insert_ne by congruence.
      apply list_lookup_insert_eq. exact Hli. }
  assert (H2 : <[j := a]> (<[i := b]> m) !! j = Some a).
  { apply list_lookup_insert_eq. rewrite length_insert. exact Hlj. }
  split; [exact (Permutation_insert_swap m i j a b Hi Hj)|].
  split; [congruence|]. split; [congruence|]. split.
  - intros k Hki Hkj. rewrite !list_lookup_insert_ne by congruence. reflexivity.
  - rewrite H1, H2. f_equal. apply list_eq. intros k.
    destruct (decide (k = j)) as [->|Hkj].
    { rewrite list_lookup_insert_eq; [congruence|]. rewrite !length_insert. exact Hlj. }
    rewrite list_lookup_insert_ne by congruence.
    destruct (decide (k = i)) as [->|Hki].
    { rewrite list_lookup_insert_eq; [congruence|]. rewrite !length_insert. exact Hli. }
    rewrite !list_lookup_insert_ne by congruence. reflexivity.
Qed.

Lemma Swap_exchanges_witness :
  let a := {| severity := "error"; path := "a.go"; line := 9; col := 1; message := "" |} in
  let b := {| severity := "error"; path := "b.go"; line := 2; col := 1; message := "" |} in
  Issues.Swap [a; b; a] 0 1 = Some [b; a; a]
  /\ [b; a; a] ≡ₚ [a; b; a]
  /\ Issues.Swap [b; a; a] 0 1 = Some [a; b; a].
Proof.
  intros a b.
  pose proof (Swap_exchanges [a; b; a] [b; a; a] 0 1 eq_refl) as (Hp & _ & _ & _ & Hs).
  split; [reflexivity|]. split; [exact Hp | exact Hs].
Defined.

(** ** The filter of the report *)

Lemma report_elem filter (issues : list Issue) (text : string) :
  In text (report filter issues) ->
  exists issue,
    In issue issues /\ text = Issue_String issue ++ String nl ""
    /\ forall re, filter = Some re -> MatchString re (Issue_String issue) = false.
Proof.
  unfold report. intros H. apply in_flat_map in H as (issue & Hin & Htext).
  exists issue. split; [exact Hin|].
  assert (Hline : Sprintf ("%s" ++ String nl "") [AStr (Issue_String issue)]
                  = Issue_String issue ++ String nl "")
    by (cbn; rewrite sapp_nil_r; reflexivity).
  destruct filter as [re|].
  - destruct (MatchString re (Issue_String issue)) eqn:Hm; [destruct Htext|].
    destruct Htext as [<-|[]]. split; [exact Hline|]. intros re' [= <-]. exact Hm.
  - destruct Htext as [<-|[]]. split; [exact Hline | discriminate].
Qed.

(** X19.  Every line [main] prints is the rendering, with a newline, of an
    issue some enabled linter sent, and with an [--exclude] pattern the
    rendering of that issue does not match it. *)
Theorem printed_lines_pass_the_filter chanMax fl sh sched lines text :
  main chanMax fl sh sched = Some (Printed lines) -> In text lines ->
  exists issue,
    In issue (issues_of fl sh)
    /\ text = Issue_String issue ++ String nl ""
    /\ forall re, exclude_filter fl = Some re ->
                  MatchString re (Issue_String issue) = false.
Proof.
  intros Hmain Hin.
  destruct (main_printed chanMax fl sh sched lines Hmain) as (s & Hrun & Hex & Hwg & ->).
  pose proof (run_inv_run _ _ _ _ _ (goroutines_start fl sh) Hrun) as Hinv.
  destruct (finished_state _ s Hinv Hwg) as [_ Hqueue].
  destruct (report_elem _ _ _ Hin) as (issue & Hq & Htext & Hre).
  exists issue. split; [|auto].
  apply list_elem_of_In. unfold issues_of.
  rewrite <- (run_all_sent _ _ _ _ _ Hrun), <- Hqueue.
  apply list_elem_of_In. exact Hq.
Qed.

Lemma printed_lines_pass_the_filter_witness :
  let fl := {| lintersFlag := defaultLinters;
               linterMessageOverrideFlag := defaultMessageOverride;
               linterSeverityFlag := defaultSeverity;
               pathArg := "."; fastFlag := true;
               disableLintersFlag := ["gotype"; "defercheck"; "vet"];
               concurrencyFlag := 4; excludeFlag := "a[.]go" |} in
  let sh : shell := fun _ => ("a.go:2:1: y" ++ String nl "b.go:3:1: z", None) in
  let sched := [Admit "golint"; Emit "golint"; Emit "golint"; Return "golint";
                Release "golint"; Done "golint"] in
  main (2 ^ 31 - 1) fl sh sched = Some (Printed ["b.go:3:1:warning: z" ++ String nl ""])
  /\ exists issue,
       In issue (issues_of fl sh)
       /\ "b.go:3:1:warning: z" ++ String nl "" = Issue_String issue ++ String nl ""
       /\ forall re, exclude_filter fl = Some re ->
                     MatchString re (Issue_String issue) = false.
Proof.
  intros fl sh sched.
  assert (Hmain : main (2 ^ 31 - 1) fl sh sched
                  = Some (Printed ["b.go:3:1:warning: z" ++ String nl ""]))
    by (vm_compute; reflexivity).
  split; [exact Hmain|].
  exact (printed_lines_pass_the_filter (2 ^ 31 - 1) fl sh sched _ _ Hmain
           (or_introl eq_refl)).
Defined.

(** ** The submatches of a match *)

Section CapsLength.

Import Regexp.

Variable total : nat.
Variable n : nat.

Lemma star_loop_keeps (m : string -> captures -> cont -> option (string * captures))
    (g : bool) (k : cont) :
  (forall s caps k' res, keeps n k' -> length caps = n -> m s caps k' = Some res ->
                         length res.2 = n) ->
  keeps n k ->
  forall fuel, keeps n (star_loop m g k fuel).
Proof.
  intros Hm Hk. induction fuel as [|fuel IH]; intros s caps res Hlen; cbn [star_loop].
  - apply Hk. exact Hlen.
  - assert (Hagain : forall res',
              m s caps (fun s' caps' =>
                if (slen s' <? slen s)%nat then star_loop m g k fuel s' caps' else None)
              = Some res' -> length res'.2 = n).
    { intros res'. apply Hm; [|exact Hlen].
      intros s' caps' r Hl. destruct (slen s' <? slen s)%nat; [|discriminate].
      apply IH. exact Hl. }
    unfold or_else. destruct g.
    + destruct (m s caps _) as [r|] eqn:E.
      * intros [= <-]. apply Hagain. reflexivity.
      * apply Hk. exact Hlen.
    + destruct (k s caps) as [r|] eqn:E.
      * intros [= <-]. eapply Hk; eassumption.
      * apply Hagain.
Qed.

Lemma bt_keeps (r : regex) :
  forall s caps k res, keeps n k -> length caps = n -> bt total r s caps k = Some res ->
                       length res.2 = n.
Proof.
  induction r as [|cc| | |r1 IH1 r2 IH2|r1 IH1 r2 IH2|g r1 IH1|g r1 IH1|g r1 IH1|i name r1 IH1];
    intros s caps k res Hk Hlen; cbn [bt].
  - apply Hk. exact Hlen.
  - destruct s as [|c s]; [discriminate|]. destruct (class_mem cc c); [|discriminate].
    apply Hk. exact Hlen.
  - destruct (slen s =? total)%nat; [|discriminate]. apply Hk. exact Hlen.
  - destruct s; [|discriminate]. apply Hk. exact Hlen.
  - apply IH1; [|exact Hlen]. intros s' caps' r Hl. apply IH2; assumption.
  - unfold or_else. destruct (bt total r1 s caps k) as [r|] eqn:E.
    + intros [= <-]. eapply IH1; eassumption.
    + apply IH2; assumption.
  - apply star_loop_keeps; assumption.
  - apply IH1; [|exact Hlen]. intros s' caps' r Hl.
    apply star_loop_keeps; assumption.
  - unfold or_else. destruct g.
    + destruct (bt total r1 s caps k) as [r|] eqn:E.
      * intros [= <-]. eapply IH1; eassumption.
      * apply Hk. exact Hlen.
    + destruct (k s caps) as [r|] eqn:E.
      * intros [= <-]. eapply Hk; eassumption.
      * apply IH1; assumption.
  - apply IH1; [|exact Hlen]. intros s' caps' r Hl. apply Hk.
    unfold set_cap. etransitivity; [apply length_insert | exact Hl].
Qed.

End CapsLength.

Lemma match_here_length total re pos s m :
  Regexp.match_here total re pos s = Some m ->
  length (Regexp.m_groups m) = length (Regexp.SubexpNames re).
Proof.
  unfold Regexp.match_here.
  destruct (Regexp.bt total re s _ _) as [[s' caps']|] eqn:E; [|discriminate].
  intros [= <-]. cbn [Regexp.m_groups]. unfold Regexp.set_cap.
  etransitivity; [apply length_insert|].
  apply (bt_keeps total (length (Regexp.SubexpNames re))) in E; [exact E| |].
  - intros s0 caps0 res Hl [= <-]. exact Hl.
  - rewrite length_replicate. reflexivity.
Qed.

Lemma search_length total re s :
  forall pos m, Regexp.search total re pos s = Some m ->
                length (Regexp.m_groups m) = length (Regexp.SubexpNames re).
Proof.
  induction s as [|c s IH]; intros pos m; cbn [Regexp.search].
  - destruct (Regexp.match_here total re pos "") as [m'|] eqn:E; [|discriminate].
    intros [= <-]. eapply match_here_length; eassumption.
  - destruct (Regexp.match_here total re pos (String c s)) as [m'|] eqn:E; [|apply IH].
    intros [= <-]. eapply match_here_length; eassumption.
Qed.

(** X20.  The first match [executeLinter] reads has a submatch for every
    name of [re.SubexpNames()], so the index [groups[0][i]] of its loop is
    never out of range; and a line is skipped exactly when the pattern
    matches nowhere on it. *)
Theorem first_match_has_every_group fl re name l :
  match Regexp.FindAllSubmatch re l with
  | [] => Regexp.search (slen l) re 0 l = None /\ extract_line fl re name l = inr None
  | first :: _ =>
      length first = length (Regexp.SubexpNames re)
      /\ (forall i, (i < length (Regexp.SubexpNames re))%nat -> is_Some (first !! i))
      /\ extract_line fl re name l <> inr None
  end.
Proof.
  pose proof (extract_line_leftmost fl re name l) as Hline.
  rewrite FindAllSubmatch_first.
  destruct (Regexp.search (slen l) re 0 l) as [m|] eqn:E.
  - pose proof (search_length _ _ _ _ _ E) as Hlen. split; [exact Hlen|]. split.
    + intros i Hi. apply lookup_lt_is_Some. rewrite Hlen. exact Hi.
    + rewrite Hline. destruct (fill_fields _ _ _ _); discriminate.
  - split; [reflexivity | exact Hline].
Qed.
